(** * Windowed sensor statistics: the combiner of [main.py] and the
      event-time engine it is run on

    [main.py] defines [SensorStatisticsCombineFn], a Beam [CombineFn] that
    buffers the temperature readings of one (sensor, window) pair in a list
    and reduces them with NumPy and SciPy, and [run_pipeline], which windows
    twelve readings into fixed 60 second windows, fires each window once the
    watermark has passed it and prints one line per (sensor, window).

    The combiner is embedded from the source.  Python floats are IEEE 754
    binary64 numbers, so readings are values of Rocq's primitive [float].
    The two powers the program takes go to the C library's [pow], whose
    last bit is not fixed: they are a parameter of the embedding.
    The window assigner, the watermark tracker, the accumulator store and the
    trigger are not part of [main.py]; they are modelled from the
    specification and marked as such. *)

From Stdlib Require Import ZArith List Floats Lia Permutation Sorted.
From Stdlib Require Uint63.
From stdpp Require Import gmap strings list fin_maps.
Import ListNotations.

Local Open Scope Z_scope.

(** ** Numeric evaluation with a record of the divisions performed

    The only partial operation of the statistics is division.  NumPy does
    not raise on a zero divisor, it returns an infinity or a NaN, so the
    divisions are kept in a log next to the value instead of an error
    result: a computation returns its value together with the divisions
    the value went through, oldest first. *)

Record Division : Type := mkDivision { numerator : float; denominator : float }.

Definition Traced (A : Type) : Type := (A * list Division)%type.

Definition ret {A : Type} (a : A) : Traced A := (a, []).

Definition bind {A B : Type} (m : Traced A) (k : A -> Traced B) : Traced B :=
  let (b, later) := k (fst m) in (b, snd m ++ later).

Notation "'let*' x ':=' m 'in' k" := (bind m (fun x => k))
  (at level 10, x name, m at level 100, k at level 200).

Definition value_of {A : Type} (m : Traced A) : A := fst m.

Definition divisions_of {A : Type} (m : Traced A) : list Division := snd m.

(** [um.true_divide]: the IEEE quotient, logged. *)
Definition true_divide (a b : float) : Traced float :=
  (PrimFloat.div a b, [mkDivision a b]).

(** A division whose divisor is [+0] or [-0]. *)
Definition by_zero (d : Division) : bool := PrimFloat.is_zero (denominator d).

Definition divides_by_zero {A : Type} (m : Traced A) : bool :=
  existsb by_zero (divisions_of m).

(** ** The NumPy and SciPy functions called by [extract_output]

    These are library functions, not part of [main.py].  They are written
    here after what NumPy and SciPy (from 1.15 on for [stats.tstd]) compute
    on a one-dimensional float64 array, operation by operation, so that
    every intermediate result is rounded where the library rounds it. *)

(** An element count as a float64 (exact below 2^53). *)
Definition float_of_count (n : Z) : float := PrimFloat.of_uint63 (Uint63.of_Z n).

Definition len {A : Type} (values : list A) : Z := Z.of_nat (length values).

(** NumPy sums a contiguous float64 array with its pairwise summation
    routine.  Below 8 elements the routine is a plain loop from [0.0].  Up
    to 128 elements it keeps 8 running sums, [r[j]] taking the elements at
    the indices [j], [8 + j], [16 + j], ..., adds them up as
    [((r0 + r1) + (r2 + r3)) + ((r4 + r5) + (r6 + r7))] and then adds the
    elements left over after the last full block of 8.  A longer array is
    cut at [n / 2] rounded down to a multiple of 8 and the sums of the two
    parts are added. *)

(** [for (i = 0; i < n; i++) res += a[i]], continued from [res]. *)
Definition sum_loop (res : float) (a : list float) : float :=
  fold_left PrimFloat.add a res.

(** [r[j] += a[i + j]] for [j] from 0 to 7. *)
Fixpoint add_lanes (r block : list float) : list float :=
  match r, block with
  | rj :: r', aj :: block' => PrimFloat.add rj aj :: add_lanes r' block'
  | _, _ => r
  end.

(** The loop [for (i = 8; i < n - (n % 8); i += 8)]: [blocks] full blocks of
    8 are added to the running sums; the part of the array not yet read is
    returned with them. *)
Fixpoint unrolled_loop (blocks : nat) (r a : list float) : list float * list float :=
  match blocks with
  | O => (r, a)
  | S blocks' => unrolled_loop blocks' (add_lanes r (firstn 8 a)) (skipn 8 a)
  end.

(** [((r[0] + r[1]) + (r[2] + r[3])) + ((r[4] + r[5]) + (r[6] + r[7]))] *)
Definition lane_sums (r : list float) : float :=
  match r with
  | [r0; r1; r2; r3; r4; r5; r6; r7] =>
      PrimFloat.add (PrimFloat.add (PrimFloat.add r0 r1) (PrimFloat.add r2 r3))
                    (PrimFloat.add (PrimFloat.add r4 r5) (PrimFloat.add r6 r7))
  | _ => sum_loop 0%float r
  end.

(** The branch of the routine for 8 to 128 elements. *)
Definition block_sum (a : list float) : float :=
  let state := unrolled_loop (length a / 8 - 1)%nat (firstn 8 a) (skipn 8 a) in
  sum_loop (lane_sums (fst state)) (snd state).

(** The pairwise summation routine.  The recursion halves the array;
    [fuel] bounds its depth, and the length of the array is enough of it
    (lemma [pairwise_sum_fuel]). *)
Fixpoint pairwise_sum (fuel : nat) (a : list float) : float :=
  if (length a <? 8)%nat then sum_loop 0%float a
  else if (length a <=? 128)%nat then block_sum a
  else
    match fuel with
    | O => block_sum a
    | S fuel' =>
        let n2 := (length a / 2 - (length a / 2) mod 8)%nat in
        PrimFloat.add (pairwise_sum fuel' (firstn n2 a))
                      (pairwise_sum fuel' (skipn n2 a))
    end.

(** [np.add.reduce]: the result starts as the identity [0.0] of the
    addition, and the pairwise sum of the array is added to it. *)
Definition np_sum (values : list float) : float :=
  PrimFloat.add 0%float (pairwise_sum (length values) values).

(** [s] is obtained from the elements of [l] by additions alone, every
    element used once, in some order and grouping, possibly with [0.0] as
    a starting value. *)
Inductive sums : list float -> float -> Prop :=
| sums_zero : sums [] 0%float
| sums_one (x : float) : sums [x] x
| sums_add (l1 l2 : list float) (s1 s2 : float) :
    sums l1 s1 -> sums l2 s2 -> sums (l1 ++ l2) (PrimFloat.add s1 s2)
| sums_perm (l l' : list float) (s : float) :
    Permutation l l' -> sums l s -> sums l' s.

(** [np.mean]: the sum divided by the number of elements. *)
Definition np_mean (values : list float) : Traced float :=
  true_divide (np_sum values) (float_of_count (len values)).

(** [np.var] with [ddof] delta degrees of freedom: the sum of the squared
    deviations from the mean, divided by [max (n - ddof) 0]. *)
Definition np_var (ddof : Z) (values : list float) : Traced float :=
  let* arrmean := np_mean values in
  let x := map (fun v => PrimFloat.mul (PrimFloat.sub v arrmean) (PrimFloat.sub v arrmean)) values in
  true_divide (np_sum x) (float_of_count (Z.max (len values - ddof) 0)).

(** [np.std]: the square root of [np.var]. *)
Definition np_std (ddof : Z) (values : list float) : Traced float :=
  let* v := np_var ddof values in
  ret (PrimFloat.sqrt v).

(** *** Powers

    [x ** 0.5] in [stats.tstd] and [x ** 2] in [extract_output] are taken
    on a NumPy float64 scalar, which hands them to [pow] of the C library.
    IEEE 754 does not fix the last bit of [pow]: a C library may return the
    correctly rounded power or one of its two neighbours.  The two powers
    are therefore operations of a record, and [accurate] is what is known
    of them. *)
Record Power : Type := mkPower {
  pow_half : float -> float;
  pow_two : float -> float
}.

(** [result] is [rounded] or one of the two binary64 numbers next to it. *)
Definition one_ulp (rounded result : float) : Prop :=
  result = rounded
  \/ result = PrimFloat.next_up rounded
  \/ result = PrimFloat.next_down rounded.

(** On a positive argument [x ** 0.5] is within one unit in the last place
    of the correctly rounded square root, and [x ** 2] is within one of the
    correctly rounded product [x * x]. *)
Record accurate (P : Power) : Prop := mkAccurate {
  pow_half_accurate :
    forall x : float, PrimFloat.ltb 0 x = true -> one_ulp (PrimFloat.sqrt x) (pow_half P x);
  pow_two_accurate :
    forall x : float, one_ulp (PrimFloat.mul x x) (pow_two P x)
}.

(** The correctly rounded square. *)
Definition square (x : float) : float := PrimFloat.mul x x.

(** The powers of a C library that rounds both correctly.  [stats.tstd]
    takes the power 0.5 of a variance, a mean of squares times a positive
    factor, where [pow (x, 0.5)] has the special values of the square
    root. *)
Definition correctly_rounded : Power :=
  {| pow_half := PrimFloat.sqrt; pow_two := square |}.

(** *** [scipy.stats.tstd]

    Without limits [stats.tstd (a)] is [tvar (a) ** 0.5], and [tvar] is
    SciPy's own variance with the correction 1 that leaves NaNs out of its
    two means; [tstd] itself hands back NaN for an array with a NaN. *)

(** [np.isnan (x).any ()] *)
Definition contains_nan (x : list float) : bool := existsb PrimFloat.is_nan x.

(** The number of NaNs of [x]. *)
Definition count_nan (x : list float) : Z := len (List.filter PrimFloat.is_nan x).

(** SciPy's mean under [nan_policy = 'omit'].  Without a NaN it is
    [np.mean].  With one, every NaN is given the value 0 and the weight 0,
    every other element the weight 1, and the sum of [x * weights] is
    divided by the sum of the weights. *)
Definition xp_mean_omit (x : list float) : Traced float :=
  if contains_nan x then
    let weights := map (fun v => if PrimFloat.is_nan v then 0%float else 1%float) x in
    let x := map (fun v => if PrimFloat.is_nan v then 0%float else v) x in
    let norm := np_sum weights in
    let wsum := np_sum (zip_with PrimFloat.mul x weights) in
    true_divide wsum norm
  else np_mean x.

(** SciPy's variance under [nan_policy = 'omit']: the mean of the squared
    deviations from the mean, multiplied by [n / (n - correction)] where
    [n] counts the elements that are not NaN.  When [n - correction] is not
    positive the factor is NaN, and nothing is divided.  The counts are
    exact in binary64, so they are kept as integers up to the division. *)
Definition xp_var (correction : Z) (x : list float) : Traced float :=
  let* mean := xp_mean_omit x in
  let x_mean := map (fun v => PrimFloat.sub v mean) x in
  let* var := xp_mean_omit (map (fun d => PrimFloat.mul d d) x_mean) in
  if correction =? 0 then ret var
  else
    let n := len x - count_nan x in
    let* factor :=
      if 0 <? n - correction
      then true_divide (float_of_count n) (float_of_count (n - correction))
      else ret PrimFloat.nan in
    ret (PrimFloat.mul var factor).

(** [stats.tstd (values)]: NaN for an empty array and for an array that
    holds a NaN, otherwise the power 0.5 of the variance with correction
    1. *)
Definition stats_tstd_with (P : Power) (values : list float) : Traced float :=
  match values with
  | [] => ret PrimFloat.nan
  | _ =>
      if contains_nan values then ret PrimFloat.nan
      else
        let* v := xp_var 1 values in
        ret (pow_half P v)
  end.

(** [stats.tstd] over correctly rounded powers. *)
Definition stats_tstd (values : list float) : Traced float :=
  stats_tstd_with correctly_rounded values.

(** [scipy.stats.variation] with its defaults: the coefficient of
    variation, the population standard deviation ([ddof = 0]) over the mean;
    SciPy returns NaN for an empty array. *)
Definition stats_variation (values : list float) : Traced float :=
  match values with
  | [] => ret PrimFloat.nan
  | _ =>
      let* mean_a := np_mean values in
      let* std_a := np_std 0 values in
      true_divide std_a mean_a
  end.

(** ** [beam.CombineFn]

    The four operations Beam calls on a combiner. *)

Module beam.

Class CombineFn (In Acc Out : Type) : Type := {
  create_accumulator : Acc;
  add_input : Acc -> In -> Acc;
  merge_accumulators : list Acc -> Acc;
  extract_output : Acc -> Out
}.

End beam.

(** ** [SensorStatisticsCombineFn] *)

(** The accumulator is the Python list of the values seen so far. *)
Definition Accumulator : Type := list float.

(** The dictionary returned by [extract_output]; its keys are fixed, so it
    is a record. *)
Record Statistics : Type := mkStatistics {
  count : Z;
  mean : float;
  std_dev : float;
  variance : float
}.

(** [return []] *)
Definition create_accumulator : Accumulator := [].

(** [accumulator.append(element); return accumulator]: the list handed in,
    with the element at its end. *)
Definition add_input (accumulator : Accumulator) (element : float) : Accumulator :=
  accumulator ++ [element].

(** [merged = []; for acc in accumulators: merged.extend(acc)] *)
Definition merge_accumulators (accumulators : list Accumulator) : Accumulator :=
  fold_left (fun merged acc => merged ++ acc) accumulators [].

(** [if not accumulator] returns the NaN dictionary without calling NumPy;
    otherwise the entries are computed in the order of the dictionary
    display. *)
Definition extract_output_with (P : Power) (accumulator : Accumulator)
  : Traced Statistics :=
  match accumulator with
  | [] =>
      ret {| count := 0;
             mean := PrimFloat.nan;
             std_dev := PrimFloat.nan;
             variance := PrimFloat.nan |}
  | _ =>
      let values := accumulator in
      let* m := np_mean values in
      let* s := stats_tstd_with P values in
      let* cv := stats_variation values in
      ret {| count := len values;
             mean := m;
             std_dev := s;
             variance := pow_two P cv |}
  end.

(** [extract_output] over correctly rounded powers. *)
Definition extract_output (accumulator : Accumulator) : Traced Statistics :=
  extract_output_with correctly_rounded accumulator.

(** The dictionary alone, as Beam hands it downstream. *)
Definition extract (accumulator : Accumulator) : Statistics :=
  value_of (extract_output accumulator).

(** The dictionary over the powers [P]. *)
Definition extract_with (P : Power) (accumulator : Accumulator) : Statistics :=
  value_of (extract_output_with P accumulator).

(** The coefficient of variation written out: the population standard
    deviation over the mean.  The mean is the sum of the values over their
    number, the population variance the sum of the squared deviations from
    the mean over that same number, the standard deviation its square
    root. *)
Definition arithmetic_mean (values : list float) : float :=
  PrimFloat.div (np_sum values) (float_of_count (len values)).

Definition population_std (values : list float) : float :=
  let mu := arithmetic_mean values in
  let squared_deviation v := PrimFloat.mul (PrimFloat.sub v mu) (PrimFloat.sub v mu) in
  PrimFloat.sqrt
    (PrimFloat.div (np_sum (map squared_deviation values))
                   (float_of_count (len values))).

Definition coefficient_of_variation (values : list float) : float :=
  PrimFloat.div (population_std values) (arithmetic_mean values).

(** The accumulator after adding [values] one by one to a fresh one. *)
Definition add_all (values : list float) : Accumulator :=
  fold_left add_input values create_accumulator.

#[export] Instance SensorStatisticsCombineFn :
  beam.CombineFn float Accumulator Statistics := {|
  beam.create_accumulator := create_accumulator;
  beam.add_input := add_input;
  beam.merge_accumulators := merge_accumulators;
  beam.extract_output := extract
|}.

(** ** The accumulators as Python lists

    [add_input] appends to the list it is given and returns that same list;
    [create_accumulator] and [merge_accumulators] build a new list.  Here
    the lists live in a heap of objects and an accumulator is a reference
    into it, so that sharing is visible.  A reference that is not in the
    heap does not occur in a Python program; it reads as the empty list. *)

Module Objects.

Abbreviation Ref := positive (only parsing).

Abbreviation Heap := (gmap positive (list float)) (only parsing).

(** The list a reference points to. *)
Definition contents (h : Heap) (r : Ref) : list float := default [] (h !! r).

(** [return []]: a new list object. *)
Definition create_accumulator (h : Heap) : Ref * Heap :=
  let accumulator := fresh (dom h) in
  (accumulator, <[accumulator := []]> h).

(** [accumulator.append(element); return accumulator] *)
Definition add_input (accumulator : Ref) (element : float) (h : Heap) : Ref * Heap :=
  (accumulator, alter (fun values => values ++ [element]) accumulator h).

(** [merged = []; for acc in accumulators: merged.extend(acc); return merged] *)
Definition merge_accumulators (accumulators : list Ref) (h : Heap) : Ref * Heap :=
  let merged := fresh (dom h) in
  (merged,
   fold_left (fun h' acc => alter (fun values => values ++ contents h' acc) merged h')
             accumulators (<[merged := []]> h)).

(** [extract_output] reads the list, [np.array(accumulator)] copies it, and
    the heap stays as it is. *)
Definition extract_output (accumulator : Ref) (h : Heap) : Traced Statistics * Heap :=
  (extract_output (contents h accumulator), h).

(** [add_input] for each of [values] in turn, on the same reference. *)
Definition add_inputs (accumulator : Ref) (values : list float) (h : Heap) : Ref * Heap :=
  fold_left (fun state element => add_input (fst state) element (snd state))
            values (accumulator, h).

End Objects.

(** ** Event-time windowing

    [run_pipeline] hands windowing to Beam:
    [beam.WindowInto(beam.window.FixedWindows(60), trigger=AfterWatermark(),
    accumulation_mode=AccumulationMode.DISCARDING)] followed by
    [beam.CombinePerKey].  The components below are the ones the
    specification describes for that engine. *)

(** [beam.window.FixedWindows(60)] *)
Definition fixed_window_size : Z := 60.

(** Modelled from the spec: the Window of section 3, the half-open interval
    from [start] up to [end_], [end_] excluded ([end] is a keyword). *)
Record Window : Type := mkWindow { start : Z; end_ : Z }.

#[export] Instance Window_eq_dec : EqDecision Window.
Proof. solve_decision. Defined.

#[export] Instance Window_countable : Countable Window :=
  inj_countable' (fun w => (start w, end_ w)) (fun p => mkWindow (fst p) (snd p))
                 (fun w => match w with mkWindow _ _ => eq_refl end).

(** Modelled from the spec: membership of an event time in the half-open
    interval of a window. *)
Definition contains (w : Window) (t : Z) : bool := (start w <=? t) && (t <? end_ w).

(** Modelled from the spec: the one error of section 7 that construction
    and window assignment can raise. *)
Inductive PipelineError : Type := ConfigError.

(** A value or an error. *)
Inductive Result (A : Type) : Type :=
| Ok (a : A)
| Err (e : PipelineError).

Arguments Ok {A} a.
Arguments Err {A} e.

(** Modelled from the spec: the window assigner of section 4.1, which
    [main.py] leaves to [FixedWindows].  [start] is
    [floor(event_time / window_size) * window_size], [end_] is
    [start + window_size], and a window size that is not positive is a
    [ConfigError].  [Z.div] rounds towards minus infinity for a positive
    divisor, as Python's [//] does. *)
Definition assign (event_time window_size : Z) : Result Window :=
  if window_size <=? 0 then Err ConfigError
  else
    let start := event_time / window_size * window_size in
    Ok (mkWindow start (start + window_size)).

(** Modelled from the spec: what [current] returns, an integer or plus
    infinity, with its order and maximum. *)
Inductive Timestamp : Type :=
| Finite (t : Z)
| PlusInfinity.

Definition ts_leb (a b : Timestamp) : bool :=
  match a, b with
  | _, PlusInfinity => true
  | PlusInfinity, Finite _ => false
  | Finite x, Finite y => x <=? y
  end.

Definition ts_le (a b : Timestamp) : Prop := ts_leb a b = true.

Definition ts_max (a b : Timestamp) : Timestamp := if ts_leb a b then b else a.

(** The watermark tracker of section 4.2 of the spec, which [main.py]
    leaves to the runner.  None of its operations can fail. *)
Module WatermarkTracker.

(** Modelled from the spec: the tracker holds the watermark, a single
    scalar. *)
Record t : Type := mk { watermark : Timestamp }.

(** Modelled from the spec: [current() -> integer|+inf]. *)
Definition current (tr : t) : Timestamp := watermark tr.

(** Modelled from the spec: [advance(candidate)] sets
    [watermark = max(watermark, candidate)]. *)
Definition advance (candidate : Z) (tr : t) : t :=
  mk (ts_max (watermark tr) (Finite candidate)).

(** Modelled from the spec: [advanceToInfinity()], called at end of
    stream. *)
Definition advanceToInfinity (tr : t) : t := mk PlusInfinity.

(** A call on the tracker. *)
Inductive call : Type :=
| Advance (candidate : Z)
| AdvanceToInfinity.

(** The tracker after a call. *)
Definition apply (tr : t) (c : call) : t :=
  match c with
  | Advance candidate => advance candidate tr
  | AdvanceToInfinity => advanceToInfinity tr
  end.

(** The tracker after a sequence of calls. *)
Definition run (tr : t) (calls : list call) : t := fold_left apply calls tr.

(** What [current] returns after each call of a sequence. *)
Fixpoint observations (tr : t) (calls : list call) : list Timestamp :=
  match calls with
  | [] => []
  | c :: rest => current (apply tr c) :: observations (apply tr c) rest
  end.

End WatermarkTracker.

(** ** Accumulator store, trigger and emitter *)

Definition Key : Type := string.

(** A (key, window) pair, the unit of accumulation and firing. *)
Definition Pane : Type := (Key * Window)%type.

Section Engine.

Context {In Acc Out : Type} {Reducer : beam.CombineFn In Acc Out}.

(** Modelled from the spec: the Record of section 3,
    [{key, value, event_time}]; the tuples of [data] have this shape. *)
Record InputRecord : Type := mkInputRecord {
  key : Key;
  value : In;
  event_time : Z
}.

(** Modelled from the spec: the Firing Result of section 3,
    [{key, window, statistics}], what [emit] hands to the output. *)
Record FiringResult : Type := mkFiringResult {
  result_key : Key;
  result_window : Window;
  statistics : Out
}.

Definition pane_of (r : FiringResult) : Pane := (result_key r, result_window r).

(** Modelled from the spec: the state of the engine of sections 3 and 4,
    which [main.py] leaves to Beam.  [store] maps the open panes to their
    accumulators, [fired] is the set of panes in state FIRED, [emitted]
    is the sequence of [emit] calls so far, oldest first, and
    [late_dropped] counts the [LateRecordDropped] events. *)
Record Pipeline : Type := mkPipeline {
  window_size : Z;
  tracker : WatermarkTracker.t;
  store : gmap Pane Acc;
  fired : gset Pane;
  emitted : list FiringResult;
  late_dropped : nat
}.

(** Modelled from the spec: a pipeline before its first record, with
    nothing stored, fired or emitted. *)
Definition initial (size : Z) (watermark : Timestamp) : Pipeline :=
  mkPipeline size (WatermarkTracker.mk watermark) ∅ ∅ [] 0%nat.

(** Modelled from the spec: construction fails with [ConfigError] on a
    window size that is not positive (section 7). *)
Definition new_pipeline (size : Z) (watermark : Timestamp) : Result Pipeline :=
  if size <=? 0 then Err ConfigError else Ok (initial size watermark).

(** Modelled from the spec: the state FIRED of a pane (section 4.4). *)
Definition has_fired (p : Pipeline) (k : Key) (w : Window) : bool :=
  bool_decide ((k, w) ∈ fired p).

(** Modelled from the spec: [addRecord] of section 4.3.  A record for a
    fired pane is dropped and counted; otherwise the accumulator is
    created on the first record of the pane and the value added to it. *)
Definition addRecord (k : Key) (w : Window) (v : In) (p : Pipeline) : Pipeline :=
  if has_fired p k w then
    mkPipeline (window_size p) (tracker p) (store p) (fired p) (emitted p)
               (S (late_dropped p))
  else
    let acc := default beam.create_accumulator (store p !! (k, w)) in
    mkPipeline (window_size p) (tracker p)
               (<[(k, w) := beam.add_input acc v]> (store p))
               (fired p) (emitted p) (late_dropped p).

(** Modelled from the spec: [listEligible] of section 4.3, every entry
    whose window end is at or below the watermark. *)
Definition listEligible (watermark : Timestamp) (p : Pipeline) : list (Pane * Acc) :=
  List.filter (fun entry => ts_leb (Finite (end_ (snd (fst entry)))) watermark)
              (map_to_list (store p)).

(** Modelled from the spec: [remove] of section 4.3. *)
Definition remove (k : Key) (w : Window) (p : Pipeline) : Pipeline :=
  mkPipeline (window_size p) (tracker p) (delete (k, w) (store p))
             (fired p) (emitted p) (late_dropped p).

(** Modelled from the spec: [emit] of section 4.6, one more entry of the
    output. *)
Definition emit (k : Key) (w : Window) (result : Out) (p : Pipeline) : Pipeline :=
  mkPipeline (window_size p) (tracker p) (store p) (fired p)
             (emitted p ++ [mkFiringResult k w result]) (late_dropped p).

(** Modelled from the spec: a fired pane is remembered, to reject late
    records (section 4.4). *)
Definition mark_fired (k : Key) (w : Window) (p : Pipeline) : Pipeline :=
  mkPipeline (window_size p) (tracker p) (store p) ({[ (k, w) ]} ∪ fired p)
             (emitted p) (late_dropped p).

(** Modelled from the spec: the transition OPEN to FIRED of section 4.4
    under the discarding policy: extract, emit, discard the accumulator. *)
Definition fire (p : Pipeline) (entry : Pane * Acc) : Pipeline :=
  let k := fst (fst entry) in
  let w := snd (fst entry) in
  let result := beam.extract_output (snd entry) in
  mark_fired k w (remove k w (emit k w result p)).

(** Modelled from the spec: the check made every time the watermark
    advances. *)
Definition trigger (p : Pipeline) : Pipeline :=
  fold_left fire (listEligible (WatermarkTracker.current (tracker p)) p) p.

(** The pipeline with its tracker replaced. *)
Definition with_tracker (tr : WatermarkTracker.t) (p : Pipeline) : Pipeline :=
  mkPipeline (window_size p) tr (store p) (fired p) (emitted p) (late_dropped p).

(** Modelled from the spec: what can happen to a running pipeline: a
    record arrives, the watermark is advanced, the source ends. *)
Inductive Event : Type :=
| Ingest (r : InputRecord)
| Advance (candidate : Z)
| AdvanceToInfinity.

(** Modelled from the spec: the data flow of section 2.  A record is
    assigned its window and added to the store; an advance of the watermark
    is followed by the trigger check.  The [Err] branch is not reached by a
    pipeline built with [new_pipeline]. *)
Definition step (p : Pipeline) (e : Event) : Pipeline :=
  match e with
  | Ingest r =>
      match assign (event_time r) (window_size p) with
      | Ok w => addRecord (key r) w (value r) p
      | Err _ => p
      end
  | Advance candidate =>
      trigger (with_tracker (WatermarkTracker.advance candidate (tracker p)) p)
  | AdvanceToInfinity =>
      trigger (with_tracker (WatermarkTracker.advanceToInfinity (tracker p)) p)
  end.

(** The pipeline after a sequence of events. *)
Definition run (p : Pipeline) (events : list Event) : Pipeline :=
  fold_left step events p.

(** The [emit] calls made for one pane. *)
Definition results_for (k : Key) (w : Window) (p : Pipeline) : list FiringResult :=
  List.filter (fun r => bool_decide (pane_of r = (k, w))) (emitted p).

(** The panes [emit] was called for, oldest first. *)
Definition emitted_panes (p : Pipeline) : list Pane := map pane_of (emitted p).

(** What holds of every state the engine can be in: a pane with an
    accumulator has not fired, every emitted pane is marked as fired, and no
    pane was emitted twice. *)
Record consistent (p : Pipeline) : Prop := mkConsistent {
  open_not_fired : forall pane, is_Some (store p !! pane) -> pane ∉ fired p;
  emitted_fired : forall pane, pane ∈ emitted_panes p -> pane ∈ fired p;
  emitted_once : NoDup (emitted_panes p)
}.

(** [p'] is a later state than [p]: what had fired stays fired, and the
    output grew at its end only, by panes that had not fired in [p]. *)
Definition extends (p p' : Pipeline) : Prop :=
  fired p ⊆ fired p'
  /\ exists new : list FiringResult,
      emitted p' = emitted p ++ new
      /\ forall r, r ∈ new -> pane_of r ∉ fired p.

End Engine.

Arguments InputRecord In : clear implicits.
Arguments FiringResult Out : clear implicits.
Arguments Pipeline Acc Out : clear implicits.
Arguments Event In : clear implicits.

(** ** [run_pipeline]

    The twelve readings of [data], as [(sensor, temperature, timestamp)].
    The literal [20.3] is read as the nearest binary64 number, as Python
    reads it. *)
#[local] Set Warnings "-inexact-float".

Definition data : list (InputRecord float) :=
  [ mkInputRecord "sensor_A" 20.0%float 1678886400;
    mkInputRecord "sensor_B" 25.0%float 1678886410;
    mkInputRecord "sensor_A" 20.5%float 1678886430;
    mkInputRecord "sensor_A" 21.0%float 1678886460;
    mkInputRecord "sensor_B" 24.5%float 1678886470;
    mkInputRecord "sensor_A" 20.3%float 1678886490;
    mkInputRecord "sensor_A" 22.0%float 1678886520;
    mkInputRecord "sensor_B" 26.0%float 1678886530;
    mkInputRecord "sensor_A" 23.0%float 1678886580;
    mkInputRecord "sensor_A" 20.0%float 1678886640;
    mkInputRecord "sensor_A" 21.0%float 1678886650;
    mkInputRecord "sensor_A" 22.0%float 1678886660 ].

(** The bounded source [beam.Create(data)] is read to its end, here in the
    order of [data], then the watermark goes to plus infinity and every
    open pane fires.  The initial watermark lies below every timestamp of
    [data]. *)
Definition run_pipeline : Pipeline Accumulator Statistics :=
  run (initial fixed_window_size (Finite 0))
      (map Ingest data ++ [AdvanceToInfinity]).

(** *** [run_pipeline] over any readings

    Two steps of [run_pipeline] raise on a timestamp too far from 1970.
    ['Add Timestamps'] turns the seconds into microseconds held in a signed
    64-bit integer.  ['Add Window Info'] turns the start of the window into
    a Python [datetime], which reaches from the year 1 to the year 9999.
    Either raises [OverflowError], which ends the run. *)
Inductive Exception : Type := OverflowError.

Definition micros_in_range (seconds : Z) : bool :=
  (- 2 ^ 63 <=? seconds * 1000000) && (seconds * 1000000 <? 2 ^ 63).

(** From 0001-01-01 00:00:00 to the end of 9999-12-31, in seconds since
    1970. *)
Definition datetime_in_range (seconds : Z) : bool :=
  (-62135596800 <=? seconds) && (seconds <? 253402300800).

(** The reading gets through both steps. *)
Definition in_range (r : InputRecord float) : bool :=
  micros_in_range (event_time r)
  && datetime_in_range (event_time r / fixed_window_size * fixed_window_size).

(** [run_pipeline] with other readings in place of [data].  Beam does not
    fix the order in which the readings of a bounded source reach the
    combiner, so the argument is the list of the readings in the order in
    which the runner delivers them. *)
Definition run_pipeline_over (delivered : list (InputRecord float))
  : Exception + Pipeline Accumulator Statistics :=
  if forallb in_range delivered
  then inr (run (initial fixed_window_size (Finite 0))
                (map Ingest delivered ++ [AdvanceToInfinity]))
  else inl OverflowError.

(** The record has key [k] and falls into the window [w] of
    [FixedWindows(60)]. *)
Definition in_pane {In : Type} (k : Key) (w : Window) (r : InputRecord In) : bool :=
  bool_decide (key r = k)
  && match assign (event_time r) fixed_window_size with
     | Ok w' => bool_decide (w' = w)
     | Err _ => false
     end.

(** The values of the records of one pane, in the order of [records]. *)
Definition readings_of {In : Type} (k : Key) (w : Window)
           (records : list (InputRecord In)) : list In :=
  map value (List.filter (in_pane k w) records).

(** ** Classes of binary64 numbers

    Predicates on the specification side of a float, used to state what an
    operation can return. *)

(** Neither NaN nor an infinity. *)
Definition sf_finite (x : spec_float) : bool :=
  match x with
  | S754_nan | S754_infinity _ => false
  | S754_zero _ | S754_finite _ _ _ => true
  end.

(** [+0] or [-0]. *)
Definition sf_zero (x : spec_float) : bool :=
  match x with
  | S754_zero _ => true
  | _ => false
  end.

(** A zero, a positive number or plus infinity: not NaN and not below
    zero. *)
Definition sf_nonneg (x : spec_float) : bool :=
  match x with
  | S754_zero _ | S754_infinity false | S754_finite false _ _ => true
  | _ => false
  end.

(** A positive number that is not an infinity. *)
Definition sf_pos_finite (x : spec_float) : bool :=
  match x with
  | S754_finite false _ _ => true
  | _ => false
  end.

(** The number one, [2^52 * 2^-52]. *)
Definition sf_one : spec_float := S754_finite false 4503599627370496 (-52).

(** * Properties *)

(** ** Lists of readings *)

Section Accumulators.

Implicit Types (a b acc : Accumulator) (x y : float).

Lemma extend_loop (accumulators : list Accumulator) (merged : Accumulator) :
  fold_left (fun merged acc => merged ++ acc) accumulators merged
  = merged ++ concat accumulators.
Proof.
  revert merged.
  induction accumulators as [|acc rest IH]; intros merged; simpl.
  - now rewrite app_nil_r.
  - now rewrite IH, app_assoc.
Qed.

Lemma merge_accumulators_concat (accumulators : list Accumulator) :
  merge_accumulators accumulators = concat accumulators.
Proof. unfold merge_accumulators. now rewrite extend_loop. Qed.

Lemma add_loop (values : list float) acc :
  fold_left add_input values acc = acc ++ values.
Proof.
  revert acc.
  induction values as [|v values IH]; intros acc; simpl.
  - now rewrite app_nil_r.
  - rewrite IH. unfold add_input. now rewrite <- app_assoc.
Qed.

Lemma add_all_values (values : list float) : add_all values = values.
Proof. unfold add_all. now rewrite add_loop. Qed.

Lemma count_extract acc : count (extract acc) = len acc.
Proof. destruct acc as [|x rest]; reflexivity. Qed.

End Accumulators.

(** ** Pairwise summation

    Whatever the length of the array, the pairwise sum adds up every
    element once; only the order and the grouping of the additions depend
    on the length. *)

Section Summation.

Implicit Types (a l block rest : list float) (r : list float) (s res : float)
         (lanes : list (list float)).

Lemma sums_eq l l' s : l = l' -> sums l s -> sums l' s.
Proof. now intros ->. Qed.

Lemma sum_loop_sums a l res : sums l res -> sums (l ++ a) (sum_loop res a).
Proof.
  revert l res. induction a as [|x a IH]; intros l res Hres; simpl.
  - now rewrite app_nil_r.
  - apply (sums_eq ((l ++ [x]) ++ a)); [now rewrite <- app_assoc|].
    apply IH. apply sums_add; [assumption|constructor].
Qed.

(** One block added to the running sums: lane [j] has taken element [j] of
    the block. *)
Lemma add_lanes_sums lanes r block :
  Forall2 sums lanes r ->
  (length block <= length r)%nat ->
  exists lanes',
    Forall2 sums lanes' (add_lanes r block)
    /\ Permutation (concat lanes') (concat lanes ++ block).
Proof.
  intros Hlanes. revert block.
  induction Hlanes as [|lane rj lanes r Hlane Hlanes IH]; intros block Hlen.
  - destruct block as [|aj block]; [|simpl in Hlen; lia].
    exists []. split; [constructor|reflexivity].
  - destruct block as [|aj block].
    + exists (lane :: lanes). split; [now constructor|].
      now rewrite app_nil_r.
    + simpl in Hlen.
      destruct (IH block) as (lanes' & Hlanes' & Hperm); [lia|].
      exists ((lane ++ [aj]) :: lanes'). split.
      * simpl. constructor; [|assumption].
        apply sums_add; [assumption|constructor].
      * simpl. rewrite Hperm, <- !app_assoc.
        apply Permutation_app_head. simpl.
        apply Permutation_middle.
Qed.

Lemma add_lanes_length r block : length (add_lanes r block) = length r.
Proof.
  revert block. induction r as [|rj r IH]; intros [|aj block]; simpl;
    try reflexivity.
  now rewrite IH.
Qed.

Lemma unrolled_loop_sums (blocks : nat) lanes r a :
  Forall2 sums lanes r ->
  length r = 8%nat ->
  exists lanes',
    Forall2 sums lanes' (fst (unrolled_loop blocks r a))
    /\ length (fst (unrolled_loop blocks r a)) = 8%nat
    /\ Permutation (concat lanes' ++ snd (unrolled_loop blocks r a))
                   (concat lanes ++ a).
Proof.
  revert lanes r a.
  induction blocks as [|blocks IH]; intros lanes r a Hlanes Hlen; simpl.
  - exists lanes. now repeat split.
  - destruct (add_lanes_sums lanes r (firstn 8 a) Hlanes)
      as (lanes1 & Hlanes1 & Hperm1).
    { rewrite Hlen. apply firstn_le_length. }
    destruct (IH lanes1 (add_lanes r (firstn 8 a)) (skipn 8 a) Hlanes1)
      as (lanes' & Hlanes' & Hlen' & Hperm').
    { now rewrite add_lanes_length. }
    exists lanes'. split; [assumption|]. split; [assumption|].
    rewrite Hperm', Hperm1, <- app_assoc.
    now rewrite firstn_skipn.
Qed.

Lemma lane_sums_sums lanes r :
  Forall2 sums lanes r -> length r = 8%nat -> sums (concat lanes) (lane_sums r).
Proof.
  intros Hlanes Hlen.
  do 8 (destruct Hlanes as [|? ? ? ? ? Hlanes]; [discriminate|]).
  destruct Hlanes; [|discriminate].
  simpl. rewrite app_nil_r.
  eapply sums_eq; [|repeat apply sums_add; eassumption].
  now rewrite <- !app_assoc.
Qed.

Lemma singletons_sums a : Forall2 sums (map (fun x => [x]) a) a.
Proof. induction a as [|x a IH]; simpl; constructor; [constructor|assumption]. Qed.

Lemma concat_singletons a : concat (map (fun x => [x]) a) = a.
Proof. induction a as [|x a IH]; simpl; [reflexivity|now rewrite IH]. Qed.

Lemma block_sum_sums a : (8 <= length a)%nat -> sums a (block_sum a).
Proof.
  intros Hlen. unfold block_sum.
  destruct (unrolled_loop_sums (length a / 8 - 1) (map (fun x => [x]) (firstn 8 a))
                               (firstn 8 a) (skipn 8 a))
    as (lanes & Hlanes & Hlanes_len & Hperm).
  { apply singletons_sums. }
  { rewrite length_firstn. lia. }
  rewrite concat_singletons, firstn_skipn in Hperm.
  apply (sums_perm _ _ _ Hperm).
  apply sum_loop_sums. now apply lane_sums_sums.
Qed.

Lemma pairwise_sum_sums (fuel : nat) a : sums a (pairwise_sum fuel a).
Proof.
  revert a. induction fuel as [|fuel IH]; intros a; simpl;
    destruct (length a <? 8)%nat eqn:Hsmall;
    try (apply (sum_loop_sums a [] 0%float); constructor);
    apply Nat.ltb_ge in Hsmall;
    destruct (length a <=? 128)%nat; try (now apply block_sum_sums).
  eapply sums_eq; [apply firstn_skipn|].
  apply sums_add; apply IH.
Qed.

(** The sum NumPy returns is a sum of all the elements. *)
Lemma np_sum_sums a : sums a (np_sum a).
Proof.
  unfold np_sum. apply (sums_add [] a); [constructor|apply pairwise_sum_sums].
Qed.

(** The fuel does not matter once it covers the length. *)
Lemma pairwise_sum_fuel (fuel fuel' : nat) a :
  (length a <= fuel)%nat -> (length a <= fuel')%nat ->
  pairwise_sum fuel a = pairwise_sum fuel' a.
Proof.
  revert fuel' a. induction fuel as [|fuel IH]; intros fuel' a Hfuel Hfuel'.
  - destruct a; [|simpl in Hfuel; lia]. now destruct fuel'.
  - destruct fuel' as [|fuel'].
    + destruct a; [reflexivity|simpl in Hfuel'; lia].
    + cbn [pairwise_sum].
      destruct (length a <? 8)%nat; [reflexivity|].
      destruct (length a <=? 128)%nat eqn:Hblock; [reflexivity|].
      apply Nat.leb_gt in Hblock.
      set (n2 := (length a / 2 - (length a / 2) mod 8)%nat).
      assert (Hcut : (0 < n2 < length a)%nat).
      { subst n2.
        pose proof (Nat.mod_upper_bound (length a / 2) 8).
        pose proof (Nat.div_lt (length a) 2).
        assert (64 <= length a / 2)%nat
          by (apply Nat.div_le_lower_bound; lia).
        lia. }
      f_equal; apply IH; rewrite ?length_firstn, ?length_skipn; lia.
Qed.

(** Below 8 elements the sum is the plain loop from [0.0], with the
    identity in front. *)
Lemma np_sum_small a :
  (length a < 8)%nat -> np_sum a = PrimFloat.add 0%float (sum_loop 0%float a).
Proof.
  intros Hlen. unfold np_sum.
  destruct a as [|x a]; [reflexivity|].
  simpl pairwise_sum.
  apply Nat.ltb_lt in Hlen. simpl length in Hlen. now rewrite Hlen.
Qed.

End Summation.

(** Two floats that [=?] tells apart are different. *)
Lemma float_neq (x y : float) :
  PrimFloat.eqb x x = true -> PrimFloat.eqb x y = false -> x <> y.
Proof. intros Hx Hxy ->. congruence. Qed.

(** ** The combiner on accumulators *)

(** C5, as stated, fails: merging [[20.0]] with [[25.0]] gives [[20.0; 25.0]]
    and merging them the other way round gives [[25.0; 20.0]], two different
    lists. *)
Lemma merge_accumulators_not_commutative :
  merge_accumulators [[20.0%float]; [25.0%float]]
  <> merge_accumulators [[25.0%float]; [20.0%float]].
Proof.
  intros H.
  apply (f_equal (fun merged => match merged with
                                | first :: _ => PrimFloat.eqb first 20
                                | [] => false
                                end)) in H.
  vm_compute in H. discriminate.
Qed.

(** C5, amended: merging a single accumulator returns it unchanged, and the
    two orders of merging two accumulators give lists with the same values
    in the same numbers, hence of the same length, that are equal exactly
    when the two concatenations are. *)
Theorem merge_accumulators_singleton_swap (a b : Accumulator) :
  merge_accumulators [a] = a
  /\ Permutation (merge_accumulators [a; b]) (merge_accumulators [b; a])
  /\ len (merge_accumulators [a; b]) = len (merge_accumulators [b; a])
  /\ (merge_accumulators [a; b] = merge_accumulators [b; a] <-> a ++ b = b ++ a).
Proof.
  rewrite !merge_accumulators_concat. simpl. rewrite !app_nil_r.
  split; [reflexivity|].
  split; [apply Permutation_app_comm|].
  split; [|tauto].
  unfold len. rewrite !length_app. lia.
Qed.

(** C6: merging the one fresh accumulator gives the fresh accumulator, and
    merging the accumulator of [x] with the accumulator of [y] gives the
    accumulator obtained by adding [x] and then [y]. *)
Theorem merge_accumulators_reducer_algebra (x y : float) :
  merge_accumulators [create_accumulator] = create_accumulator
  /\ merge_accumulators [add_input create_accumulator x; add_input create_accumulator y]
     = add_input (add_input create_accumulator x) y.
Proof. split; reflexivity. Qed.

(** ** [extract_output] on the empty accumulator *)

(** C8: on the empty accumulator [extract_output] returns count 0 with NaN
    for the mean, the standard deviation and the variance, and it does so
    without performing any division, in particular none by zero. *)
Theorem extract_output_empty :
  extract_output create_accumulator
  = ({| count := 0; mean := PrimFloat.nan; std_dev := PrimFloat.nan;
        variance := PrimFloat.nan |}, [])
  /\ count (extract create_accumulator) = 0
  /\ PrimFloat.is_nan (mean (extract create_accumulator)) = true
  /\ PrimFloat.is_nan (std_dev (extract create_accumulator)) = true
  /\ PrimFloat.is_nan (variance (extract create_accumulator)) = true
  /\ divisions_of (extract_output create_accumulator) = []
  /\ divides_by_zero (extract_output create_accumulator) = false.
Proof. repeat split. Qed.

(** ** The variance entry *)

Lemma divisions_of_bind {A B : Type} (m : Traced A) (k : A -> Traced B) :
  divisions_of (bind m k) = divisions_of m ++ divisions_of (k (value_of m)).
Proof. unfold bind, divisions_of, value_of. now destruct (k (fst m)). Qed.

Lemma value_of_bind {A B : Type} (m : Traced A) (k : A -> Traced B) :
  value_of (bind m k) = value_of (k (value_of m)).
Proof. unfold bind, value_of. now destruct (k (fst m)). Qed.

Lemma extract_nonempty (acc : Accumulator) :
  acc <> [] ->
  extract acc
  = {| count := len acc;
       mean := value_of (np_mean acc);
       std_dev := value_of (stats_tstd acc);
       variance := square (value_of (stats_variation acc)) |}.
Proof. destruct acc as [|x rest]; [congruence|reflexivity]. Qed.

Lemma stats_variation_nonempty (acc : Accumulator) :
  acc <> [] ->
  value_of (stats_variation acc)
  = PrimFloat.div (value_of (np_std 0 acc)) (value_of (np_mean acc)).
Proof. destruct acc as [|x rest]; [congruence|reflexivity]. Qed.

(** [stats.variation] computes the coefficient of variation as it is
    written out in [coefficient_of_variation]. *)
Lemma stats_variation_value (acc : Accumulator) :
  acc <> [] ->
  value_of (stats_variation acc) = coefficient_of_variation acc.
Proof.
  intros Hacc. rewrite (stats_variation_nonempty acc Hacc).
  unfold np_std, np_var. rewrite !value_of_bind.
  unfold coefficient_of_variation, population_std, arithmetic_mean.
  rewrite Z.sub_0_r, Z.max_l by (unfold len; lia).
  reflexivity.
Qed.

Lemma extract_with_nonempty (P : Power) (acc : Accumulator) :
  acc <> [] ->
  extract_with P acc
  = {| count := len acc;
       mean := value_of (np_mean acc);
       std_dev := value_of (stats_tstd_with P acc);
       variance := pow_two P (value_of (stats_variation acc)) |}.
Proof.
  destruct acc as [|x rest]; [congruence|intros _].
  unfold extract_with, extract_output_with. now rewrite !value_of_bind.
Qed.

(** C9: whatever C library takes the powers, as long as it is accurate to
    one unit in the last place: for a non-empty accumulator the variance
    entry is the power 2 of the coefficient of variation, the population
    standard deviation divided by the mean, and so within one unit in the
    last place of the rounded square of that quotient.  It is not the
    square of the reported standard deviation: for the readings 1.0 and 3.0
    the coefficient of variation is 0.5 and the variance entry about 0.25,
    while the sample variance is 2.0 and the standard deviation squared
    about 2. *)
Theorem variance_is_squared_variation (P : Power) :
  accurate P ->
  (forall acc : Accumulator,
      acc <> [] ->
      variance (extract_with P acc) = pow_two P (coefficient_of_variation acc)
      /\ one_ulp (PrimFloat.mul (coefficient_of_variation acc)
                                (coefficient_of_variation acc))
                 (variance (extract_with P acc)))
  /\ (exists acc : Accumulator,
         acc <> []
         /\ coefficient_of_variation acc = 0.5%float
         /\ PrimFloat.ltb (variance (extract_with P acc)) 1 = true
         /\ PrimFloat.ltb 1 (pow_two P (std_dev (extract_with P acc))) = true
         /\ variance (extract_with P acc) <> pow_two P (std_dev (extract_with P acc))).
Proof.
  intros HP.
  assert (Hall : forall acc : Accumulator,
             acc <> [] ->
             variance (extract_with P acc) = pow_two P (coefficient_of_variation acc)).
  { intros acc Hacc. rewrite (extract_with_nonempty P acc Hacc). cbn [variance].
    now rewrite (stats_variation_value acc Hacc). }
  split.
  - intros acc Hacc. split; [now apply Hall|].
    rewrite (Hall acc Hacc). apply (pow_two_accurate P HP).
  - exists [1%float; 3%float].
    assert (Hacc : [1%float; 3%float] <> []) by discriminate.
    assert (Hcv : coefficient_of_variation [1%float; 3%float] = 0.5%float)
      by reflexivity.
    assert (Hstd : std_dev (extract_with P [1%float; 3%float])
                   = pow_half P 2%float).
    { rewrite (extract_with_nonempty P _ Hacc). cbn [std_dev].
      unfold stats_tstd_with.
      change (contains_nan [1%float; 3%float]) with false. cbv iota.
      rewrite value_of_bind.
      now change (value_of (xp_var 1 [1%float; 3%float])) with 2%float. }
    assert (Hvariance : PrimFloat.ltb (variance (extract_with P [1%float; 3%float])) 1
                        = true).
    { rewrite (Hall _ Hacc), Hcv.
      destruct (pow_two_accurate P HP 0.5%float) as [H|[H|H]]; rewrite H;
        reflexivity. }
    assert (Hsquare : PrimFloat.ltb 1 (pow_two P (std_dev (extract_with P [1%float; 3%float])))
                      = true).
    { rewrite Hstd.
      destruct (pow_half_accurate P HP 2%float eq_refl) as [H|[H|H]]; rewrite H;
        match goal with
        | |- context [pow_two P ?r] =>
            destruct (pow_two_accurate P HP r) as [H'|[H'|H']]; rewrite H'
        end; reflexivity. }
    split; [exact Hacc|]. split; [exact Hcv|].
    split; [exact Hvariance|]. split; [exact Hsquare|].
    rewrite (Hall _ Hacc), Hcv, Hstd.
    destruct (pow_two_accurate P HP 0.5%float) as [H|[H|H]]; rewrite H;
      destruct (pow_half_accurate P HP 2%float eq_refl) as [H1|[H1|H1]]; rewrite H1;
      match goal with
      | |- context [pow_two P ?r] =>
          destruct (pow_two_accurate P HP r) as [H2|[H2|H2]]; rewrite H2
      end;
      apply float_neq; reflexivity.
Qed.

Lemma variance_is_squared_variation_witness :
  accurate correctly_rounded
  /\ [1%float; 3%float] <> []
  /\ variance (extract [1%float; 3%float])
     = PrimFloat.mul (coefficient_of_variation [1%float; 3%float])
                     (coefficient_of_variation [1%float; 3%float])
  /\ variance (extract [1%float; 3%float]) = 0.25%float.
Proof.
  assert (HP : accurate correctly_rounded)
    by (split; intros; left; reflexivity).
  assert (Hacc : [1%float; 3%float] <> []) by discriminate.
  split; [exact HP|]. split; [exact Hacc|].
  split.
  - exact (proj1 (proj1 (variance_is_squared_variation correctly_rounded HP) _ Hacc)).
  - reflexivity.
Defined.

(** ** Binary64 arithmetic

    Facts about the primitive operations, through their specification on
    [spec_float]. *)

Section Binary64.

Local Open Scope float_scope.

Lemma Prim2SF_zero : Prim2SF 0 = S754_zero false.
Proof. reflexivity. Qed.

Lemma SFcompare_refl_finite s m e :
  SFcompare (S754_finite s m e) (S754_finite s m e) = Some Eq.
Proof.
  simpl.
  match goal with
  | |- context [match ?c with Eq => _ | Lt => _ | Gt => _ end] =>
      assert (He : c = Eq) by exact (Z.compare_refl e)
  end.
  match goal with
  | |- context [?cmp Eq m m] =>
      assert (Hm : cmp Eq m m = Eq) by exact (Pos.compare_cont_refl m Eq)
  end.
  rewrite He, Hm. now destruct s.
Qed.

Lemma is_nan_spec (x : float) :
  is_nan x = match Prim2SF x with S754_nan => true | _ => false end.
Proof.
  unfold is_nan. rewrite FloatAxioms.eqb_spec. unfold SFeqb.
  destruct (Prim2SF x) as [s|s| |s m e].
  - reflexivity.
  - now destruct s.
  - reflexivity.
  - now rewrite SFcompare_refl_finite.
Qed.

Lemma is_infinity_spec (x : float) :
  is_infinity x = match Prim2SF x with S754_infinity _ => true | _ => false end.
Proof.
  unfold is_infinity. rewrite FloatAxioms.eqb_spec, abs_spec.
  change (Prim2SF infinity) with (S754_infinity false).
  now destruct (Prim2SF x) as [s|s| |s m e].
Qed.

Lemma is_finite_spec (x : float) : is_finite x = sf_finite (Prim2SF x).
Proof.
  unfold is_finite. rewrite is_nan_spec, is_infinity_spec.
  now destruct (Prim2SF x).
Qed.

Lemma is_zero_spec (x : float) : is_zero x = sf_zero (Prim2SF x).
Proof.
  unfold is_zero. rewrite FloatAxioms.eqb_spec.
  change (Prim2SF zero) with (S754_zero false).
  destruct (Prim2SF x) as [s|s| |s m e]; try reflexivity.
  - now destruct s.
  - now destruct s.
Qed.

(** Addition is commutative. *)
Lemma SF64add_comm (x y : spec_float) : SF64add x y = SF64add y x.
Proof.
  destruct x as [sx|sx| |sx mx ex], y as [sy|sy| |sy my ey];
    try reflexivity;
    try (destruct sx, sy; reflexivity).
  unfold SF64add, SFadd. now rewrite Z.min_comm, Z.add_comm.
Qed.

Lemma add_comm (a b : float) : a + b = b + a.
Proof. apply Prim2SF_inj. rewrite !add_spec. apply SF64add_comm. Qed.

(** The sum of two elements, taken from [0.0] in either order.  Starting
    from [0.0] matters for the sign of a zero sum only. *)
Lemma SF64add_from_zero_swap (x y : spec_float) :
  SF64add (SF64add (S754_zero false) x) y
  = SF64add (SF64add (S754_zero false) y) x.
Proof.
  destruct x as [sx|sx| |sx mx ex], y as [sy|sy| |sy my ey];
    try reflexivity;
    try (destruct sx; reflexivity);
    try (destruct sy; reflexivity);
    try (destruct sx, sy; reflexivity).
  change (SF64add (S754_zero false) (S754_finite sx mx ex))
    with (S754_finite sx mx ex).
  change (SF64add (S754_zero false) (S754_finite sy my ey))
    with (S754_finite sy my ey).
  apply SF64add_comm.
Qed.

Lemma np_sum_pair (a b : float) : np_sum [a; b] = np_sum [b; a].
Proof.
  rewrite !np_sum_small by (simpl; lia).
  unfold sum_loop. simpl. f_equal. apply Prim2SF_inj.
  rewrite !add_spec, Prim2SF_zero. apply SF64add_from_zero_swap.
Qed.

(** Dividing by a zero never gives a finite number. *)
Lemma div_by_zero_not_finite (x z : float) :
  is_zero z = true -> is_finite (x / z) = false.
Proof.
  rewrite is_zero_spec, is_finite_spec, div_spec.
  destruct (Prim2SF z) as [sz|sz| |sz mz ez]; try discriminate.
  intros _. now destruct (Prim2SF x) as [sx|sx| |sx mx ex].
Qed.

(** The square of an infinity or a NaN is one again. *)
Lemma square_not_finite (x : float) :
  is_finite x = false -> is_finite (square x) = false.
Proof.
  unfold square. rewrite !is_finite_spec, mul_spec.
  now destruct (Prim2SF x) as [sx|sx| |sx mx ex].
Qed.

Lemma is_zero_finite (x : float) : is_zero x = true -> is_finite x = true.
Proof.
  rewrite is_zero_spec, is_finite_spec.
  now destruct (Prim2SF x).
Qed.

End Binary64.

(** ** Order of the readings *)

Section Order.

Implicit Types (x y : float) (acc : Accumulator).

Lemma np_mean_pair x y : np_mean [x; y] = np_mean [y; x].
Proof. unfold np_mean. now rewrite np_sum_pair. Qed.

Lemma np_var_pair (ddof : Z) x y : np_var ddof [x; y] = np_var ddof [y; x].
Proof.
  unfold np_var. rewrite (np_mean_pair x y).
  unfold bind. cbn [map].
  match goal with
  | |- context [np_sum [?a; ?b]] => rewrite (np_sum_pair a b)
  end.
  reflexivity.
Qed.

Lemma contains_nan_pair x y : contains_nan [x; y] = contains_nan [y; x].
Proof. unfold contains_nan. cbn [existsb]. rewrite !orb_false_r. apply orb_comm. Qed.

Lemma count_nan_pair x y : count_nan [x; y] = count_nan [y; x].
Proof.
  unfold count_nan, len. cbn [List.filter].
  now destruct (PrimFloat.is_nan x), (PrimFloat.is_nan y).
Qed.

Lemma xp_mean_omit_pair x y : xp_mean_omit [x; y] = xp_mean_omit [y; x].
Proof.
  unfold xp_mean_omit. rewrite (contains_nan_pair x y), (np_mean_pair x y).
  destruct (contains_nan [y; x]); [|reflexivity].
  cbn [map zip_with].
  repeat match goal with
         | |- context [np_sum [?a; ?b]] =>
             lazymatch a with
             | context [x] => rewrite (np_sum_pair a b)
             end
         end.
  reflexivity.
Qed.

Lemma xp_var_pair (correction : Z) x y :
  xp_var correction [x; y] = xp_var correction [y; x].
Proof.
  unfold xp_var. rewrite (xp_mean_omit_pair x y), (count_nan_pair x y).
  unfold bind at 1 3. cbn [map].
  match goal with
  | |- context [xp_mean_omit [?a; ?b]] => rewrite (xp_mean_omit_pair a b)
  end.
  reflexivity.
Qed.

Lemma stats_tstd_with_pair (P : Power) x y :
  stats_tstd_with P [x; y] = stats_tstd_with P [y; x].
Proof.
  unfold stats_tstd_with.
  now rewrite (contains_nan_pair x y), (xp_var_pair 1 x y).
Qed.

Lemma stats_variation_pair x y : stats_variation [x; y] = stats_variation [y; x].
Proof.
  unfold stats_variation, np_std.
  now rewrite (np_mean_pair x y), (np_var_pair 0 x y).
Qed.

Lemma extract_output_with_pair (P : Power) x y :
  extract_output_with P [x; y] = extract_output_with P [y; x].
Proof.
  unfold extract_output_with.
  now rewrite (np_mean_pair x y), (stats_tstd_with_pair P x y),
    (stats_variation_pair x y).
Qed.

Lemma extract_output_pair x y : extract_output [x; y] = extract_output [y; x].
Proof. apply extract_output_with_pair. Qed.

End Order.

(** C7, as stated, fails beyond two readings: 1.0, 1e16 and -1e16 added in
    this order have mean 0.0, because 1.0 is absorbed by 1e16, and added as
    1e16, -1e16, 1.0 they have mean 0.33333333333333331. *)
Lemma extract_depends_on_order :
  Permutation [1%float; 1e16%float; (-1e16)%float]
              [1e16%float; (-1e16)%float; 1%float]
  /\ extract (add_all [1%float; 1e16%float; (-1e16)%float])
     <> extract (add_all [1e16%float; (-1e16)%float; 1%float]).
Proof.
  split.
  - change [1e16%float; (-1e16)%float; 1%float]
      with ([1e16%float; (-1e16)%float] ++ [1%float]).
    apply (Permutation_cons_append [1e16%float; (-1e16)%float] 1%float).
  - intros H. apply (f_equal (fun s => PrimFloat.eqb (mean s) 0)) in H.
    vm_compute in H. discriminate.
Qed.

(** C7, amended: two readings give the same output in either order, the
    divisions performed included.  For any number of readings, adding them
    in another order leaves the count unchanged and the accumulator a
    permutation; the mean, the standard deviation and the variance are
    floating-point results computed in buffer order. *)
Theorem extract_output_order :
  (forall x y : float,
      extract_output (add_input (add_input create_accumulator x) y)
      = extract_output (add_input (add_input create_accumulator y) x))
  /\ (forall xs ys : list float,
         Permutation xs ys ->
         Permutation (add_all xs) (add_all ys)
         /\ count (extract (add_all xs)) = count (extract (add_all ys))).
Proof.
  split.
  - intros x y. apply extract_output_pair.
  - intros xs ys Hperm. rewrite !add_all_values. split; [assumption|].
    rewrite !count_extract. unfold len.
    now rewrite (Permutation_length Hperm).
Qed.

Lemma extract_output_order_witness :
  Permutation [20.0%float; 20.5%float] [20.5%float; 20.0%float]
  /\ Permutation (add_all [20.0%float; 20.5%float]) (add_all [20.5%float; 20.0%float])
  /\ count (extract (add_all [20.0%float; 20.5%float]))
     = count (extract (add_all [20.5%float; 20.0%float])).
Proof.
  assert (Hperm : Permutation [20.0%float; 20.5%float] [20.5%float; 20.0%float])
    by apply perm_swap.
  split; [exact Hperm|].
  exact (proj2 extract_output_order _ _ Hperm).
Defined.

(** ** A zero mean *)

Section ZeroMean.

Implicit Types (acc : Accumulator).

(** The last division of [stats.variation] is the one by the mean. *)
Lemma stats_variation_divisions acc :
  acc <> [] ->
  divisions_of (stats_variation acc)
  = divisions_of (np_mean acc) ++ divisions_of (np_std 0 acc)
    ++ [mkDivision (value_of (np_std 0 acc)) (value_of (np_mean acc))].
Proof.
  destruct acc as [|x rest]; [congruence|intros _].
  unfold stats_variation. now rewrite !divisions_of_bind.
Qed.

(** The last division of [extract_output] is the one by the mean. *)
Lemma variation_division_logged acc :
  acc <> [] ->
  In (mkDivision (value_of (np_std 0 acc)) (value_of (np_mean acc)))
     (divisions_of (extract_output acc)).
Proof.
  intros Hacc. pose proof (stats_variation_divisions acc Hacc) as Hlog.
  destruct acc as [|x rest]; [congruence|].
  unfold extract_output, extract_output_with.
  rewrite !divisions_of_bind, Hlog.
  rewrite !in_app_iff. right. right. left. right. right. now left.
Qed.

Lemma zero_mean_divides_by_zero acc :
  acc <> [] ->
  PrimFloat.is_zero (mean (extract acc)) = true ->
  divides_by_zero (extract_output acc) = true.
Proof.
  intros Hacc Hzero. unfold divides_by_zero.
  apply existsb_exists.
  exists (mkDivision (value_of (np_std 0 acc)) (value_of (np_mean acc))).
  split; [now apply variation_division_logged|].
  rewrite (extract_nonempty acc Hacc) in Hzero. exact Hzero.
Qed.

Lemma zero_mean_variance acc :
  acc <> [] ->
  PrimFloat.is_zero (mean (extract acc)) = true ->
  PrimFloat.is_finite (variance (extract acc)) = false.
Proof.
  intros Hacc Hzero.
  rewrite (extract_nonempty acc Hacc) in *. cbn [variance mean] in *.
  rewrite (stats_variation_nonempty acc Hacc).
  now apply square_not_finite, div_by_zero_not_finite.
Qed.

End ZeroMean.

(** ** Signs through rounding

    Rounding a non-negative mantissa never produces a NaN or a negative
    number.  This is followed through [shr_1], [shr_fexp] and
    [binary_round_aux] and then lifted to the operations. *)

Section Rounding.

Lemma shr_1_nonneg mrs : 0 <= shr_m mrs -> 0 <= shr_m (shr_1 mrs).
Proof.
  destruct mrs as [m r s]. simpl.
  destruct m as [|p|p]; [easy| |lia].
  intros _. destruct p; simpl; lia.
Qed.

Lemma iter_pos_invariant {A : Type} (P : A -> Prop) (f : A -> A) :
  (forall a, P a -> P (f a)) ->
  forall n a, P a -> P (SpecFloat.iter_pos f n a).
Proof.
  intros Hf. induction n as [n IH|n IH|]; intros a Ha; simpl; auto.
Qed.

Lemma shr_nonneg mrs e n : 0 <= shr_m mrs -> 0 <= shr_m (fst (shr mrs e n)).
Proof.
  intros H. destruct n as [|p|p]; simpl; try assumption.
  apply (iter_pos_invariant (fun mrs => 0 <= shr_m mrs));
    [apply shr_1_nonneg|assumption].
Qed.

Lemma shr_record_of_loc_m m l : shr_m (shr_record_of_loc m l) = m.
Proof. destruct l as [|[]]; reflexivity. Qed.

Lemma shr_fexp_nonneg m e l :
  0 <= m -> 0 <= shr_m (fst (shr_fexp prec emax m e l)).
Proof.
  intros H. unfold shr_fexp. apply shr_nonneg.
  now rewrite shr_record_of_loc_m.
Qed.

Lemma round_nearest_even_nonneg m l : 0 <= m -> 0 <= round_nearest_even m l.
Proof.
  intros H. destruct l as [|[]]; simpl; try lia.
  destruct (Z.even m); lia.
Qed.

Lemma binary_round_aux_nonneg m e l :
  0 <= m -> sf_nonneg (binary_round_aux prec emax false m e l) = true.
Proof.
  intros H. unfold binary_round_aux.
  pose proof (shr_fexp_nonneg m e l H) as H1.
  destruct (shr_fexp prec emax m e l) as [mrs' e']. simpl in H1.
  pose proof (shr_fexp_nonneg _ e' loc_Exact
                (round_nearest_even_nonneg _ (loc_of_shr_record mrs') H1)) as H2.
  destruct (shr_fexp prec emax _ e' loc_Exact) as [mrs'' e'']. simpl in H2.
  destruct (shr_m mrs'') as [|p|p]; [reflexivity| |lia].
  now destruct (e'' <=? emax - prec).
Qed.

Lemma binary_round_nonneg m e :
  sf_nonneg (binary_round prec emax false m e) = true.
Proof.
  unfold binary_round.
  destruct (shl_align m e _) as [mz ez].
  now apply binary_round_aux_nonneg.
Qed.

Lemma SF64add_nonneg x y :
  sf_nonneg x = true -> sf_nonneg y = true -> sf_nonneg (SF64add x y) = true.
Proof.
  destruct x as [sx|[]| |[] mx ex], y as [sy|[]| |[] my ey];
    try discriminate; intros _ _; try reflexivity.
  - now destruct sx, sy.
  - unfold SF64add, SFadd. cbn [cond_Zopp Z.add binary_normalize].
    apply binary_round_nonneg.
Qed.

Lemma SF64mul_self_nonneg x :
  sf_finite x = true -> sf_nonneg (SF64mul x x) = true.
Proof.
  destruct x as [s|s| |s m e]; try discriminate; intros _.
  - reflexivity.
  - unfold SF64mul, SFmul. rewrite xorb_nilpotent.
    now apply binary_round_aux_nonneg.
Qed.

Lemma SF64sqrt_nonneg x : sf_nonneg x = true -> sf_nonneg (SF64sqrt x) = true.
Proof.
  destruct x as [s|[]| |[] m e]; try discriminate; intros _; try reflexivity.
  unfold SF64sqrt, SFsqrt, SFsqrt_core_binary.
  match goal with
  | |- context [Z.sqrtrem ?a] =>
      pose proof (Z.sqrt_nonneg a) as Hq;
      rewrite <- (Z.sqrtrem_sqrt a) in Hq;
      destruct (Z.sqrtrem a) as [q r]
  end.
  now apply binary_round_aux_nonneg.
Qed.

Lemma SF64div_nonneg x y :
  sf_nonneg x = true -> sf_pos_finite y = true ->
  sf_nonneg (SF64div x y) = true.
Proof.
  destruct y as [sy|sy| |[] my ey]; try discriminate.
  destruct x as [sx|[]| |[] mx ex]; try discriminate; intros _ _;
    try reflexivity.
  unfold SF64div, SFdiv, SFdiv_core_binary.
  match goal with
  | |- context [Z.div_eucl ?a ?b] =>
      assert (Hq : 0 <= fst (Z.div_eucl a b));
      [|destruct (Z.div_eucl a b) as [q r]]
  end.
  - apply Z.div_pos; [|reflexivity].
    match goal with |- 0 <= match ?s with _ => _ end => destruct s end;
      try apply Z.shiftl_nonneg; lia.
  - now apply binary_round_aux_nonneg.
Qed.

(** An element count below 2^53 is a positive float. *)

Lemma digits2_pos_size p : digits2_pos p = Pos.size p.
Proof. induction p; simpl; congruence. Qed.

Lemma digits2_pos_iter_xO p k :
  Z.pos (digits2_pos (Pos.iter xO p k)) = Z.pos (digits2_pos p) + Z.pos k.
Proof.
  induction k using Pos.peano_ind.
  - simpl. lia.
  - rewrite Pos.iter_succ. simpl. lia.
Qed.

Lemma binary_round_aux_canonical m e :
  Z.pos (digits2_pos m) = 53 -> -1074 <= e <= 971 ->
  binary_round_aux prec emax false (Z.pos m) e loc_Exact = S754_finite false m e.
Proof.
  intros Hd He.
  assert (Hshr : shr_fexp prec emax (Z.pos m) e loc_Exact
                 = (Build_shr_record (Z.pos m) false false, e)).
  { unfold shr_fexp.
    replace (fexp prec emax (Zdigits2 (Z.pos m) + e) - e) with 0; [reflexivity|].
    unfold fexp, SpecFloat.emin, prec, emax. simpl Zdigits2. lia. }
  unfold binary_round_aux. rewrite Hshr.
  cbn [shr_m loc_of_shr_record round_nearest_even]. rewrite Hshr.
  cbn [shr_m].
  destruct (e <=? emax - prec) eqn:Hle; [reflexivity|].
  unfold emax, prec in Hle. lia.
Qed.

(** The digits of a positive number bound it. *)
Lemma digits2_pos_bounds p :
  2 ^ (Z.pos (digits2_pos p) - 1) <= Z.pos p < 2 ^ Z.pos (digits2_pos p).
Proof.
  rewrite digits2_pos_size.
  pose proof (Pos.size_le p) as Hle. pose proof (Pos.size_gt p) as Hgt.
  assert (Hle' : Z.pos (2 ^ Pos.size p) <= Z.pos p~0) by exact Hle.
  assert (Hgt' : Z.pos p < Z.pos (2 ^ Pos.size p)) by exact Hgt.
  rewrite Pos2Z.inj_pow in Hle', Hgt'.
  replace (Z.pos (Pos.size p)) with (Z.pos (Pos.size p) - 1 + 1) in Hle' by lia.
  rewrite Z.pow_add_r in Hle' by lia.
  lia.
Qed.

(** The canonical form of a count. *)
Lemma binary_round_count p :
  Z.pos p < 2 ^ 53 ->
  exists m e,
    binary_round prec emax false p 0 = S754_finite false m e
    /\ Z.pos (digits2_pos m) = 53 /\ -52 <= e <= 0.
Proof.
  intros Hp.
  assert (Hd : 1 <= Z.pos (digits2_pos p) <= 53).
  { split; [lia|].
    pose proof (digits2_pos_bounds p) as [Hlo _].
    destruct (Z_le_gt_dec (Z.pos (digits2_pos p)) 53) as [|Hgt]; [assumption|exfalso].
    assert (2 ^ 53 <= 2 ^ (Z.pos (digits2_pos p) - 1)) by (apply Z.pow_le_mono_r; lia).
    lia. }
  unfold binary_round.
  assert (Hf : fexp prec emax (Z.pos (digits2_pos p) + 0)
               = Z.pos (digits2_pos p) - 53).
  { unfold fexp, SpecFloat.emin, prec, emax. lia. }
  rewrite Hf. unfold shl_align.
  destruct (Z.pos (digits2_pos p) - 53 - 0) as [|k|k] eqn:Hk; try lia.
  - rewrite binary_round_aux_canonical by lia.
    exists p, 0. repeat split; lia.
  - rewrite binary_round_aux_canonical; [|rewrite digits2_pos_iter_xO; lia|lia].
    exists (Pos.iter xO p k), (Z.pos (digits2_pos p) - 53).
    rewrite digits2_pos_iter_xO. repeat split; lia.
Qed.

Lemma float_of_count_canonical (k : Z) :
  1 <= k < 2 ^ 53 ->
  exists m e,
    Prim2SF (float_of_count k) = S754_finite false m e
    /\ Z.pos (digits2_pos m) = 53 /\ -52 <= e <= 0.
Proof.
  intros Hk. unfold float_of_count.
  rewrite of_uint63_spec, Uint63.of_Z_spec.
  rewrite Z.mod_small.
  - destruct k as [|p|p]; try lia.
    cbn [binary_normalize]. apply binary_round_count. lia.
  - change Uint63Axioms.wB with (2 ^ 63). lia.
Qed.

(** Shifting right halves the mantissa. *)
Lemma shr_1_m mrs : 0 <= shr_m mrs -> shr_m (shr_1 mrs) = shr_m mrs / 2.
Proof.
  destruct mrs as [m r s]. cbn [shr_m]. intros Hm.
  destruct m as [|[p|p|]|p]; cbn [shr_1 shr_m]; try reflexivity; try lia.
  - apply (Z.div_unique _ _ _ 1); lia.
  - apply (Z.div_unique _ _ _ 0); lia.
Qed.

Lemma iter_shr_1_m p mrs :
  0 <= shr_m mrs ->
  shr_m (SpecFloat.iter_pos shr_1 p mrs) = shr_m mrs / 2 ^ Z.pos p.
Proof.
  revert mrs. induction p as [p IH|p IH|]; intros mrs Hm; cbn [SpecFloat.iter_pos].
  - assert (H0 : 0 <= shr_m (shr_1 mrs)).
    { rewrite shr_1_m by assumption. apply Z.div_pos; lia. }
    assert (H1 : 0 <= shr_m (SpecFloat.iter_pos shr_1 p (shr_1 mrs))).
    { rewrite IH by assumption. apply Z.div_pos; lia. }
    rewrite IH, IH, shr_1_m by assumption.
    rewrite !Z.div_div by lia.
    f_equal. rewrite Pos2Z.inj_xI, <- !Z.pow_add_r by lia.
    rewrite <- Z.pow_succ_r by lia. f_equal. lia.
  - assert (H1 : 0 <= shr_m (SpecFloat.iter_pos shr_1 p mrs)).
    { rewrite IH by assumption. apply Z.div_pos; lia. }
    rewrite IH, IH by assumption.
    rewrite !Z.div_div by lia.
    f_equal. rewrite Pos2Z.inj_xO, <- !Z.pow_add_r by lia. f_equal. lia.
  - rewrite shr_1_m by assumption. reflexivity.
Qed.

Lemma float_of_count_positive (k : Z) :
  1 <= k < 2 ^ 53 -> sf_pos_finite (Prim2SF (float_of_count k)) = true.
Proof.
  intros Hk. now destruct (float_of_count_canonical k Hk) as (m & e & -> & _).
Qed.

(** [shr_fexp] brings a mantissa of at least 53 digits to 53 digits. *)
Lemma shr_fexp_normal p e l :
  53 <= Z.pos (digits2_pos p) -> -1074 <= e ->
  2 ^ 52 <= shr_m (fst (shr_fexp prec emax (Z.pos p) e l)) < 2 ^ 53
  /\ snd (shr_fexp prec emax (Z.pos p) e l) = e + (Z.pos (digits2_pos p) - 53).
Proof.
  intros Hd He. unfold shr_fexp.
  replace (fexp prec emax (Zdigits2 (Z.pos p) + e) - e)
    with (Z.pos (digits2_pos p) - 53)
    by (unfold fexp, SpecFloat.emin, prec, emax; simpl Zdigits2; lia).
  pose proof (digits2_pos_bounds p) as [Hlo Hhi].
  destruct (Z.pos (digits2_pos p) - 53) as [|k|k] eqn:Hk; try lia; cbn [shr fst snd].
  - rewrite shr_record_of_loc_m.
    replace (Z.pos (digits2_pos p)) with 53 in * by lia.
    split; [|lia]. simpl in Hlo. lia.
  - rewrite iter_shr_1_m by (rewrite shr_record_of_loc_m; lia).
    rewrite shr_record_of_loc_m.
    replace (Z.pos (digits2_pos p)) with (Z.pos k + 53) in * by lia.
    replace (Z.pos k + 53 - 1) with (52 + Z.pos k) in Hlo by lia.
    rewrite Z.pow_add_r in Hlo, Hhi by lia.
    split; [|lia]. split.
    + apply Z.div_le_lower_bound; lia.
    + apply Z.div_lt_upper_bound; lia.
Qed.

Lemma round_nearest_even_bounds m l :
  m <= round_nearest_even m l <= m + 1.
Proof.
  destruct l as [|[]]; simpl; try lia.
  destruct (Z.even m); lia.
Qed.

(** Rounding a positive mantissa of 53 digits or more, well inside the
    range of the exponents, gives a positive number. *)
Lemma binary_round_aux_positive p e l :
  53 <= Z.pos (digits2_pos p) -> -1074 <= e ->
  e + (Z.pos (digits2_pos p) - 53) + 1 <= 971 ->
  sf_pos_finite (binary_round_aux prec emax false (Z.pos p) e l) = true.
Proof.
  intros Hd He Hmax. unfold binary_round_aux.
  destruct (shr_fexp_normal p e l Hd He) as [Hm1 He1].
  destruct (shr_fexp prec emax (Z.pos p) e l) as [mrs' e']. cbn [fst snd] in Hm1, He1.
  pose proof (round_nearest_even_bounds (shr_m mrs') (loc_of_shr_record mrs')) as Hr.
  destruct (round_nearest_even (shr_m mrs') (loc_of_shr_record mrs')) as [|q|q]; try lia.
  assert (Hq : 53 <= Z.pos (digits2_pos q) <= 54).
  { pose proof (digits2_pos_bounds q) as [Hlo Hhi].
    split.
    - destruct (Z_le_gt_dec 53 (Z.pos (digits2_pos q))) as [|Hgt]; [assumption|exfalso].
      assert (2 ^ Z.pos (digits2_pos q) <= 2 ^ 52) by (apply Z.pow_le_mono_r; lia). lia.
    - destruct (Z_le_gt_dec (Z.pos (digits2_pos q)) 54) as [|Hgt]; [assumption|exfalso].
      assert (2 ^ 54 <= 2 ^ (Z.pos (digits2_pos q) - 1)) by (apply Z.pow_le_mono_r; lia).
      lia. }
  destruct (shr_fexp_normal q e' loc_Exact) as [Hm2 He2]; [lia|lia|].
  destruct (shr_fexp prec emax (Z.pos q) e' loc_Exact) as [mrs'' e'']. cbn [fst snd] in Hm2, He2.
  destruct (shr_m mrs'') as [|m|m]; try lia.
  destruct (e'' <=? emax - prec) eqn:Hle; [reflexivity|].
  unfold emax, prec in Hle. lia.
Qed.

(** The quotient of two counts is a positive number. *)
Lemma SF64div_canonical_positive m1 e1 m2 e2 :
  Z.pos (digits2_pos m1) = 53 -> Z.pos (digits2_pos m2) = 53 ->
  -52 <= e1 <= 0 -> -52 <= e2 <= 0 ->
  sf_pos_finite (SF64div (S754_finite false m1 e1) (S754_finite false m2 e2)) = true.
Proof.
  intros Hd1 Hd2 He1 He2.
  unfold SF64div, SFdiv, SFdiv_core_binary. cbn [xorb Zdigits2].
  rewrite Hd1, Hd2.
  replace (Z.min (fexp prec emax (53 + e1 - (53 + e2))) (e1 - e2)) with (e1 - e2 - 53)
    by (unfold fexp, SpecFloat.emin, prec, emax; lia).
  replace (e1 - e2 - (e1 - e2 - 53)) with 53 by lia.
  pose proof (digits2_pos_bounds m1) as [Hlo1 Hhi1].
  pose proof (digits2_pos_bounds m2) as [Hlo2 Hhi2].
  rewrite Hd1 in Hlo1, Hhi1. rewrite Hd2 in Hlo2, Hhi2.
  change (2 ^ (53 - 1)) with (2 ^ 52) in *.
  rewrite Z.shiftl_mul_pow2 by lia.
  pose proof (Z.div_eucl_eq (Z.pos m1 * 2 ^ 53) (Z.pos m2)) as Heq.
  pose proof (Z.mod_pos_bound (Z.pos m1 * 2 ^ 53) (Z.pos m2)) as Hmod.
  unfold Z.modulo in Hmod.
  destruct (Z.div_eucl (Z.pos m1 * 2 ^ 53) (Z.pos m2)) as [q r].
  specialize (Heq ltac:(lia)). specialize (Hmod ltac:(lia)).
  assert (Hq : 2 ^ 52 <= q < 2 ^ 54) by nia.
  destruct q as [|q|q]; try lia.
  assert (Hdq : 53 <= Z.pos (digits2_pos q) <= 54).
  { pose proof (digits2_pos_bounds q) as [Hlo Hhi].
    split.
    - destruct (Z_le_gt_dec 53 (Z.pos (digits2_pos q))) as [|Hgt]; [assumption|exfalso].
      assert (2 ^ Z.pos (digits2_pos q) <= 2 ^ 52) by (apply Z.pow_le_mono_r; lia). lia.
    - destruct (Z_le_gt_dec (Z.pos (digits2_pos q)) 54) as [|Hgt]; [assumption|exfalso].
      assert (2 ^ 54 <= 2 ^ (Z.pos (digits2_pos q) - 1)) by (apply Z.pow_le_mono_r; lia).
      lia. }
  apply binary_round_aux_positive; lia.
Qed.

Lemma count_quotient_positive (n k : Z) :
  1 <= n < 2 ^ 53 -> 1 <= k < 2 ^ 53 ->
  sf_pos_finite (Prim2SF (float_of_count n / float_of_count k)) = true.
Proof.
  intros Hn Hk. rewrite div_spec.
  destruct (float_of_count_canonical n Hn) as (m1 & e1 & -> & Hd1 & He1).
  destruct (float_of_count_canonical k Hk) as (m2 & e2 & -> & Hd2 & He2).
  now apply SF64div_canonical_positive.
Qed.

End Rounding.

(** ** The standard deviation under a zero mean *)

Section ZeroMeanStdDev.

Implicit Types (acc values : list float) (x y z : spec_float).

Lemma SF64add_finite_inv x y :
  sf_finite (SF64add x y) = true -> sf_finite x = true /\ sf_finite y = true.
Proof.
  destruct x as [sx|sx| |sx mx ex], y as [sy|sy| |sy my ey];
    simpl; try discriminate; auto.
  now destruct sx, sy.
Qed.

Lemma SF64div_zero_inv x y : sf_zero (SF64div x y) = true -> sf_finite x = true.
Proof.
  destruct x as [sx|sx| |sx mx ex]; try reflexivity;
    destruct y as [sy|sy| |sy my ey]; simpl; discriminate.
Qed.

Lemma SF64sub_zero_finite x z :
  sf_finite x = true -> sf_zero z = true -> sf_finite (SF64sub x z) = true.
Proof.
  destruct z as [sz|sz| |sz mz ez]; try discriminate.
  destruct x as [sx|sx| |sx mx ex]; try discriminate; intros _ _.
  - now destruct sx, sz.
  - reflexivity.
Qed.

Lemma squared_deviation_nonneg (v m : float) :
  sf_finite (Prim2SF v) = true -> sf_zero (Prim2SF m) = true ->
  sf_nonneg (Prim2SF (PrimFloat.mul (PrimFloat.sub v m) (PrimFloat.sub v m))) = true.
Proof.
  intros Hv Hm. rewrite mul_spec, sub_spec.
  now apply SF64mul_self_nonneg, SF64sub_zero_finite.
Qed.

(** A finite sum has finite terms, in whatever order they were added. *)
Lemma sums_finite_inv values (s : float) :
  sums values s ->
  sf_finite (Prim2SF s) = true ->
  Forall (fun v => sf_finite (Prim2SF v) = true) values.
Proof.
  induction 1 as [|v|l1 l2 s1 s2 _ IH1 _ IH2|l l' s Hperm _ IH]; intros Hs.
  - constructor.
  - now constructor.
  - rewrite add_spec in Hs. apply SF64add_finite_inv in Hs as [Hs1 Hs2].
    apply Forall_app. split; auto.
  - rewrite <- Hperm. auto.
Qed.

(** A sum of terms that are not negative is not negative. *)
Lemma sums_nonneg values (s : float) :
  sums values s ->
  Forall (fun q => sf_nonneg (Prim2SF q) = true) values ->
  sf_nonneg (Prim2SF s) = true.
Proof.
  induction 1 as [|v|l1 l2 s1 s2 _ IH1 _ IH2|l l' s Hperm _ IH]; intros Hall.
  - reflexivity.
  - now inversion Hall.
  - apply Forall_app in Hall as [Hall1 Hall2].
    rewrite add_spec. apply SF64add_nonneg; auto.
  - apply IH. now rewrite Hperm.
Qed.

Lemma SF64mul_nonneg_positive x y :
  sf_nonneg x = true -> sf_pos_finite y = true -> sf_nonneg (SF64mul x y) = true.
Proof.
  destruct y as [sy|sy| |[] my ey]; try discriminate.
  destruct x as [sx|[]| |[] mx ex]; try discriminate; intros _ _;
    try reflexivity.
  unfold SF64mul, SFmul. cbn [xorb]. now apply binary_round_aux_nonneg.
Qed.

Lemma contains_nan_none values :
  Forall (fun v => PrimFloat.is_nan v = false) values -> contains_nan values = false.
Proof.
  unfold contains_nan. induction 1 as [|v values Hv _ IH]; cbn [existsb].
  - reflexivity.
  - now rewrite Hv, IH.
Qed.

Lemma count_nan_none values : contains_nan values = false -> count_nan values = 0.
Proof.
  unfold contains_nan, count_nan, len.
  induction values as [|v values IH]; cbn [existsb List.filter]; [reflexivity|].
  intros H. apply orb_false_elim in H as [Hv Hrest]. rewrite Hv. auto.
Qed.

(** The squared deviations from the mean, as [stats.tstd] takes them. *)
Lemma xp_var_value values :
  contains_nan values = false ->
  value_of (xp_var 1 values)
  = PrimFloat.mul
      (value_of (xp_mean_omit
                   (map (fun d => PrimFloat.mul d d)
                        (map (fun v => PrimFloat.sub v (value_of (np_mean values)))
                             values))))
      (if 0 <? len values - 1
       then PrimFloat.div (float_of_count (len values))
                          (float_of_count (len values - 1))
       else PrimFloat.nan).
Proof.
  intros Hnan. unfold xp_var.
  rewrite (count_nan_none values Hnan), Z.sub_0_r.
  unfold xp_mean_omit at 1. rewrite Hnan.
  rewrite !value_of_bind. cbn [Z.eqb].
  rewrite value_of_bind.
  now destruct (0 <? len values - 1).
Qed.

Lemma stats_tstd_with_value (P : Power) acc :
  acc <> [] -> contains_nan acc = false ->
  value_of (stats_tstd_with P acc) = pow_half P (value_of (xp_var 1 acc)).
Proof.
  intros Hacc Hnan. destruct acc as [|x rest]; [congruence|].
  unfold stats_tstd_with. rewrite Hnan. now rewrite value_of_bind.
Qed.

Lemma np_mean_value acc :
  value_of (np_mean acc) = PrimFloat.div (np_sum acc) (float_of_count (len acc)).
Proof. reflexivity. Qed.

Lemma sf_nonneg_not_nan (r : float) :
  sf_nonneg (Prim2SF r) = true -> PrimFloat.is_nan r = false.
Proof. rewrite is_nan_spec. now destruct (Prim2SF r). Qed.

Lemma sf_finite_not_nan (r : float) :
  sf_finite (Prim2SF r) = true -> PrimFloat.is_nan r = false.
Proof. rewrite is_nan_spec. now destruct (Prim2SF r). Qed.

(** With a zero mean and at least two readings the sample variance is the
    product of a non-negative mean of squares and a positive factor. *)
Lemma zero_mean_std_dev acc :
  2 <= len acc < 2 ^ 53 ->
  PrimFloat.is_zero (mean (extract acc)) = true ->
  PrimFloat.is_nan (std_dev (extract acc)) = false.
Proof.
  intros Hlen Hzero.
  assert (Hacc : acc <> []) by (intros ->; unfold len in Hlen; simpl in Hlen; lia).
  rewrite (extract_nonempty acc Hacc) in *. cbn [mean std_dev] in *.
  rewrite is_zero_spec in Hzero.
  assert (Hall : Forall (fun v => sf_finite (Prim2SF v) = true) acc).
  { pose proof Hzero as Hsum.
    rewrite np_mean_value, div_spec in Hsum.
    apply SF64div_zero_inv in Hsum.
    exact (sums_finite_inv acc _ (np_sum_sums acc) Hsum). }
  assert (Hnan : contains_nan acc = false).
  { apply contains_nan_none. eapply Forall_impl; [exact Hall|].
    intros v. apply sf_finite_not_nan. }
  unfold stats_tstd.
  rewrite (stats_tstd_with_value _ acc Hacc Hnan), (xp_var_value acc Hnan).
  set (m := value_of (np_mean acc)) in *.
  set (squares := map (fun d => PrimFloat.mul d d)
                      (map (fun v => PrimFloat.sub v m) acc)).
  assert (Hsquares : Forall (fun q => sf_nonneg (Prim2SF q) = true) squares).
  { apply List.Forall_forall. intros q Hq. unfold squares in Hq.
    rewrite map_map in Hq.
    apply in_map_iff in Hq as (v & <- & Hv).
    apply squared_deviation_nonneg; [|assumption].
    rewrite List.Forall_forall in Hall. now apply Hall. }
  assert (Hmean : xp_mean_omit squares = np_mean squares).
  { unfold xp_mean_omit. rewrite contains_nan_none; [reflexivity|].
    eapply Forall_impl; [exact Hsquares|]. intros q. apply sf_nonneg_not_nan. }
  assert (Hcount : len squares = len acc).
  { unfold squares, len. now rewrite !length_map. }
  rewrite Hmean, np_mean_value, Hcount.
  replace (0 <? len acc - 1) with true by (symmetry; apply Z.ltb_lt; lia).
  apply sf_nonneg_not_nan. cbn [pow_half correctly_rounded].
  rewrite sqrt_spec, mul_spec.
  apply SF64sqrt_nonneg, SF64mul_nonneg_positive.
  - rewrite div_spec. apply SF64div_nonneg.
    + apply (sums_nonneg _ _ (np_sum_sums _)). exact Hsquares.
    + apply float_of_count_positive. lia.
  - apply count_quotient_positive; lia.
Qed.

End ZeroMeanStdDev.

Lemma zero_sum_zero_mean (acc : Accumulator) :
  1 <= len acc < 2 ^ 53 ->
  PrimFloat.is_zero (np_sum acc) = true ->
  PrimFloat.is_zero (mean (extract acc)) = true.
Proof.
  intros Hlen Hsum.
  assert (Hacc : acc <> []) by (intros ->; unfold len in Hlen; simpl in Hlen; lia).
  rewrite (extract_nonempty acc Hacc). cbn [mean].
  rewrite np_mean_value, is_zero_spec, div_spec.
  rewrite is_zero_spec in Hsum.
  pose proof (float_of_count_positive (len acc) Hlen) as Hcount.
  destruct (Prim2SF (np_sum acc)) as [ss|ss| |ss ms es]; try discriminate.
  now destruct (Prim2SF (float_of_count (len acc))) as [sc|sc| |[] mc ec].
Qed.

(** C10, as stated, fails on the standard deviation: the single reading 0.0
    is a non-empty accumulator that sums to zero and has mean 0.0, and its
    standard deviation is NaN: the sample variance of one value has no
    degree of freedom left. *)
Lemma zero_mean_single_reading_std_dev_nan :
  [0%float] <> []
  /\ PrimFloat.is_zero (np_sum [0%float]) = true
  /\ PrimFloat.is_zero (mean (extract [0%float])) = true
  /\ PrimFloat.is_nan (std_dev (extract [0%float])) = true.
Proof. split; [discriminate|]. repeat split. Qed.

(** C10, amended: for a non-empty accumulator whose mean is zero, the
    division by the mean is performed, the variance entry is an infinity or
    a NaN, the count is the number of readings and the mean is finite; the
    standard deviation is not NaN when there are at least two readings
    (fewer than 2^53).  The readings -1.0 and 1.0 reach this case: count 2,
    mean 0.0, standard deviation 1.4142135623730951, variance infinity. *)
Theorem zero_mean_variance_not_finite :
  (forall acc : Accumulator,
      acc <> [] ->
      PrimFloat.is_zero (mean (extract acc)) = true ->
      PrimFloat.is_finite (variance (extract acc)) = false
      /\ divides_by_zero (extract_output acc) = true
      /\ count (extract acc) = len acc
      /\ 1 <= count (extract acc)
      /\ PrimFloat.is_finite (mean (extract acc)) = true
      /\ (2 <= len acc < 2 ^ 53 ->
          PrimFloat.is_nan (std_dev (extract acc)) = false))
  /\ extract [(-1)%float; 1%float]
     = {| count := 2; mean := 0%float; std_dev := 1.4142135623730951%float;
          variance := PrimFloat.infinity |}.
Proof.
  split; [|reflexivity].
  intros acc Hacc Hzero.
  split; [now apply zero_mean_variance|].
  split; [now apply zero_mean_divides_by_zero|].
  split; [apply count_extract|].
  split.
  { rewrite count_extract. unfold len.
    destruct acc; [congruence|simpl; lia]. }
  split; [now apply is_zero_finite|].
  intros Hlen. now apply zero_mean_std_dev.
Qed.

Lemma zero_mean_variance_not_finite_witness :
  [(-1)%float; 1%float] <> []
  /\ PrimFloat.is_zero (mean (extract [(-1)%float; 1%float])) = true
  /\ PrimFloat.is_finite (variance (extract [(-1)%float; 1%float])) = false
  /\ PrimFloat.is_nan (std_dev (extract [(-1)%float; 1%float])) = false.
Proof.
  assert (Hacc : [(-1)%float; 1%float] <> []) by discriminate.
  assert (Hzero : PrimFloat.is_zero (mean (extract [(-1)%float; 1%float])) = true)
    by reflexivity.
  destruct (proj1 zero_mean_variance_not_finite _ Hacc Hzero)
    as (Hvar & _ & _ & _ & _ & Hstd).
  split; [exact Hacc|].
  split; [exact Hzero|].
  split; [exact Hvar|].
  apply Hstd. unfold len. simpl. lia.
Defined.

(** ** Window assignment *)

Section Assigner.

Variables (s : Z).
Hypothesis s_positive : 0 < s.

Lemma assign_positive_size (t : Z) :
  assign t s = Ok (mkWindow (t / s * s) (t / s * s + s)).
Proof.
  unfold assign.
  destruct (s <=? 0) eqn:Hs; [apply Z.leb_le in Hs; lia|reflexivity].
Qed.

Lemma window_bounds (t : Z) : t / s * s <= t < t / s * s + s.
Proof.
  pose proof (Z.div_mod t s) as Hdiv.
  pose proof (Z.mod_pos_bound t s s_positive) as Hmod.
  lia.
Qed.

Lemma aligned_window_unique (t k : Z) : k * s <= t < k * s + s -> k = t / s.
Proof.
  intros Hk. apply (Z.div_unique t s k (t - k * s)); lia.
Qed.

(** [FixedWindows] computes the start as [timestamp - timestamp % size];
    this is the same number. *)
Lemma window_start_mod (t : Z) : t / s * s = t - t mod s.
Proof. pose proof (Z.div_mod t s). lia. Qed.

End Assigner.

(** C2: for a positive window size [s], [assign] maps an event time [t] to
    the window starting at [floor(t / s) * s] and ending [s] later; [t]
    lies in it, no other window aligned on a multiple of [s] holds [t], and
    a later event time with the same quotient gets the same window. *)
Theorem assign_fixed_window (t s : Z) :
  0 < s ->
  assign t s = Ok (mkWindow (t / s * s) (t / s * s + s))
  /\ t / s * s <= t < t / s * s + s
  /\ contains (mkWindow (t / s * s) (t / s * s + s)) t = true
  /\ (forall k : Z, contains (mkWindow (k * s) (k * s + s)) t = true -> k = t / s)
  /\ (forall t2 : Z, t < t2 -> t / s = t2 / s -> assign t2 s = assign t s).
Proof.
  intros Hs.
  pose proof (window_bounds s Hs t) as Hbounds.
  split; [now apply assign_positive_size|].
  split; [exact Hbounds|].
  split.
  { unfold contains. simpl. apply andb_true_intro. split.
    - apply Z.leb_le. lia.
    - apply Z.ltb_lt. lia. }
  split.
  - intros k Hk. unfold contains in Hk. simpl in Hk.
    apply andb_prop in Hk as [Hlo Hhi].
    apply Z.leb_le in Hlo. apply Z.ltb_lt in Hhi.
    apply aligned_window_unique; lia.
  - intros t2 _ Hq.
    rewrite !assign_positive_size by assumption. now rewrite Hq.
Qed.

Lemma assign_fixed_window_witness :
  0 < fixed_window_size
  /\ assign 1678886430 fixed_window_size
     = Ok (mkWindow 1678886400 1678886460)
  /\ assign 1678886430 fixed_window_size = assign 1678886400 fixed_window_size.
Proof.
  assert (Hs : 0 < fixed_window_size) by reflexivity.
  destruct (assign_fixed_window 1678886400 fixed_window_size Hs)
    as (Hassign & _ & _ & _ & Hsame).
  split; [exact Hs|].
  split.
  - rewrite (Hsame 1678886430); [exact Hassign|lia|reflexivity].
  - apply Hsame; [lia|reflexivity].
Defined.

(** ** The watermark *)

Section Watermark.

Import WatermarkTracker.

Implicit Types (a b c : Timestamp) (tr : WatermarkTracker.t).

Lemma ts_le_refl a : ts_le a a.
Proof. destruct a; [apply Z.leb_refl|reflexivity]. Qed.

Lemma ts_le_trans a b c : ts_le a b -> ts_le b c -> ts_le a c.
Proof.
  unfold ts_le. destruct a, b, c; simpl; try congruence.
  rewrite !Z.leb_le. lia.
Qed.

Lemma ts_le_max_l a b : ts_le a (ts_max a b).
Proof.
  unfold ts_max. destruct (ts_leb a b) eqn:Hab; [exact Hab|apply ts_le_refl].
Qed.

Lemma apply_increases tr (c : call) : ts_le (current tr) (current (apply tr c)).
Proof.
  destruct c as [candidate|]; simpl.
  - apply ts_le_max_l.
  - unfold ts_le, current, advanceToInfinity. simpl.
    now destruct (watermark tr).
Qed.

Lemma run_increases tr (calls : list call) :
  ts_le (current tr) (current (run tr calls)).
Proof.
  revert tr. induction calls as [|c calls IH]; intros tr; simpl.
  - apply ts_le_refl.
  - eapply ts_le_trans; [apply apply_increases|apply IH].
Qed.

Lemma observations_sorted tr (calls : list call) :
  Sorted ts_le (current tr :: observations tr calls).
Proof.
  revert tr. induction calls as [|c calls IH]; intros tr; simpl.
  - repeat constructor.
  - constructor; [apply IH|].
    constructor. apply apply_increases.
Qed.

Lemma advance_cases (candidate : Z) tr :
  advance candidate tr
  = if ts_leb (Finite candidate) (current tr) then tr else mk (Finite candidate).
Proof.
  destruct tr as [[w|]]; unfold advance, ts_max, current; simpl.
  - destruct (w <=? candidate) eqn:Hwc, (candidate <=? w) eqn:Hcw;
      try reflexivity.
    + apply Z.leb_le in Hwc, Hcw. now replace candidate with w by lia.
    + apply Z.leb_gt in Hwc, Hcw. lia.
  - reflexivity.
Qed.

End Watermark.

(** C3: [advance] sets the watermark to the maximum of its value and the
    candidate, so a candidate at or below the watermark changes nothing and
    nothing can fail; over any sequence of calls, from any initial
    watermark, what [current] returns never decreases. *)
Theorem watermark_monotone (tr : WatermarkTracker.t) :
  (forall candidate : Z,
      WatermarkTracker.current (WatermarkTracker.advance candidate tr)
      = ts_max (WatermarkTracker.current tr) (Finite candidate)
      /\ ts_le (WatermarkTracker.current tr)
               (WatermarkTracker.current (WatermarkTracker.advance candidate tr))
      /\ WatermarkTracker.advance candidate tr
         = if ts_leb (Finite candidate) (WatermarkTracker.current tr)
           then tr else WatermarkTracker.mk (Finite candidate))
  /\ (forall calls : list WatermarkTracker.call,
         Sorted ts_le (WatermarkTracker.current tr
                         :: WatermarkTracker.observations tr calls))
  /\ (forall calls later : list WatermarkTracker.call,
         ts_le (WatermarkTracker.current (WatermarkTracker.run tr calls))
               (WatermarkTracker.current (WatermarkTracker.run tr (calls ++ later)))).
Proof.
  split; [|split].
  - intros candidate. split; [reflexivity|].
    split; [apply ts_le_max_l|apply advance_cases].
  - apply observations_sorted.
  - intros calls later. unfold WatermarkTracker.run.
    rewrite fold_left_app. apply run_increases.
Qed.

(** ** Firing *)

Section Firing.

Context {In Acc Out : Type} {Reducer : beam.CombineFn In Acc Out}.

Implicit Types (p : Pipeline Acc Out) (pane : Pane) (entry : Pane * Acc)
         (k : Key) (w : Window) (e : Event In).

Lemma initial_consistent (size : Z) (watermark : Timestamp) :
  consistent (initial size watermark : Pipeline Acc Out).
Proof.
  split; unfold emitted_panes; simpl.
  - intros pane [acc Hacc]. now rewrite lookup_empty in Hacc.
  - intros pane Hin. inversion Hin.
  - constructor.
Qed.

Lemma addRecord_consistent k w (v : In) p :
  consistent p -> consistent (addRecord k w v p).
Proof.
  intros [Hopen Hemitted Honce]. unfold addRecord, has_fired.
  case_bool_decide as Hfired; split; simpl; try assumption.
  intros pane Hsome.
  destruct (decide (pane = (k, w))) as [->|Hne]; [assumption|].
  apply Hopen. now rewrite lookup_insert_ne in Hsome.
Qed.

Lemma addRecord_extends k w (v : In) p : extends p (addRecord k w v p).
Proof.
  unfold addRecord, extends.
  destruct (has_fired p k w); simpl; (split; [reflexivity|]);
    exists []; rewrite app_nil_r; (split; [reflexivity|]);
    intros r Hr; inversion Hr.
Qed.

Lemma fire_store p entry : store (fire p entry) = delete (fst entry) (store p).
Proof. now destruct entry as [[k w] acc]. Qed.

Lemma fire_fired p entry : fired (fire p entry) = {[ fst entry ]} ∪ fired p.
Proof. now destruct entry as [[k w] acc]. Qed.

Lemma fire_emitted_panes p entry :
  emitted_panes (fire p entry) = emitted_panes p ++ [fst entry].
Proof.
  destruct entry as [[k w] acc]. unfold emitted_panes. simpl.
  now rewrite map_app.
Qed.

(** Firing an open pane keeps the state consistent. *)
Lemma fire_consistent p entry :
  consistent p -> fst entry ∉ fired p -> consistent (fire p entry).
Proof.
  intros [Hopen Hemitted Honce] Hnew. split.
  - intros pane. rewrite fire_store, fire_fired. intros Hsome.
    destruct (decide (pane = fst entry)) as [->|Hne].
    + rewrite lookup_delete_eq in Hsome. now destruct Hsome.
    + rewrite lookup_delete_ne in Hsome by congruence.
      specialize (Hopen pane Hsome). set_solver.
  - intros pane. rewrite fire_emitted_panes, fire_fired.
    rewrite elem_of_app, list_elem_of_singleton.
    intros [Hold| ->]; [specialize (Hemitted pane Hold)|]; set_solver.
  - rewrite fire_emitted_panes. apply NoDup_app.
    split; [assumption|]. split; [|apply NoDup_singleton].
    intros pane Hold. rewrite list_elem_of_singleton. intros ->.
    apply Hnew. now apply Hemitted.
Qed.

Lemma fire_extends p entry : fst entry ∉ fired p -> extends p (fire p entry).
Proof.
  intros Hnew. split.
  - rewrite fire_fired. set_solver.
  - destruct entry as [[k w] acc]. eexists. split; [reflexivity|].
    intros r Hr. apply list_elem_of_singleton in Hr as ->. exact Hnew.
Qed.

Lemma extends_refl p : extends p p.
Proof.
  split; [reflexivity|]. exists []. rewrite app_nil_r.
  split; [reflexivity|]. intros r Hr. inversion Hr.
Qed.

Lemma extends_trans p1 p2 p3 : extends p1 p2 -> extends p2 p3 -> extends p1 p3.
Proof.
  intros (Hfired12 & new12 & Hemitted12 & Hnew12)
         (Hfired23 & new23 & Hemitted23 & Hnew23).
  split; [set_solver|].
  exists (new12 ++ new23). split.
  - now rewrite Hemitted23, Hemitted12, app_assoc.
  - intros r. rewrite elem_of_app. intros [Hr|Hr]; [now apply Hnew12|].
    specialize (Hnew23 r Hr). set_solver.
Qed.

(** Firing one entry after the other, for entries of distinct open panes. *)
Lemma fire_all entries p :
  consistent p ->
  NoDup (map fst entries) ->
  (forall pane, pane ∈ map fst entries -> pane ∉ fired p) ->
  consistent (fold_left fire entries p) /\ extends p (fold_left fire entries p).
Proof.
  revert p. induction entries as [|entry entries IH]; intros p Hp Hdistinct Hopen.
  - split; [assumption|apply extends_refl].
  - simpl in *. apply NoDup_cons in Hdistinct as [Hhead Hdistinct].
    assert (Hnew : fst entry ∉ fired p) by (apply Hopen; left).
    destruct (IH (fire p entry)) as [Hall Hext].
    + now apply fire_consistent.
    + assumption.
    + intros pane Hin. rewrite fire_fired.
      assert (pane ∉ fired p) by (apply Hopen; now right).
      assert (pane <> fst entry) by (intros ->; contradiction).
      set_solver.
    + split; [assumption|].
      apply (extends_trans _ (fire p entry)); [now apply fire_extends|exact Hext].
Qed.

Lemma listEligible_open (watermark : Timestamp) p entry :
  entry ∈ listEligible watermark p -> store p !! fst entry = Some (snd entry).
Proof.
  unfold listEligible. rewrite list_elem_of_In, filter_In, <- list_elem_of_In.
  intros [Hin _]. destruct entry as [pane acc].
  now apply elem_of_map_to_list in Hin.
Qed.

Lemma filter_sublist {A : Type} (f : A -> bool) (l : list A) :
  sublist (List.filter f l) l.
Proof.
  induction l as [|a l IH]; simpl; [constructor|].
  destruct (f a); now constructor.
Qed.

Lemma listEligible_distinct (watermark : Timestamp) p :
  NoDup (map fst (listEligible watermark p)).
Proof.
  unfold listEligible.
  apply (sublist_NoDup _ (map fst (map_to_list (store p)))).
  - apply NoDup_fst_map_to_list.
  - apply (fmap_sublist fst), filter_sublist.
Qed.

Lemma with_tracker_consistent (tr : WatermarkTracker.t) p :
  consistent p -> consistent (with_tracker tr p).
Proof. intros [Hopen Hemitted Honce]. now split. Qed.

Lemma trigger_spec p :
  consistent p -> consistent (trigger p) /\ extends p (trigger p).
Proof.
  intros Hp. unfold trigger. apply fire_all.
  - assumption.
  - apply listEligible_distinct.
  - intros pane Hin. apply list_elem_of_fmap in Hin as (entry & -> & Hentry).
    apply (open_not_fired p Hp).
    rewrite (listEligible_open _ _ _ Hentry). eauto.
Qed.

Lemma step_spec p e : consistent p -> consistent (step p e) /\ extends p (step p e).
Proof.
  intros Hp. destruct e as [r|candidate|]; simpl.
  - destruct (assign (event_time r) (window_size p)) as [w|err].
    + split; [now apply addRecord_consistent|apply addRecord_extends].
    + split; [assumption|apply extends_refl].
  - apply (trigger_spec (with_tracker _ p)). now apply with_tracker_consistent.
  - apply (trigger_spec (with_tracker _ p)). now apply with_tracker_consistent.
Qed.

Lemma run_spec (events : list (Event In)) p :
  consistent p -> consistent (run p events) /\ extends p (run p events).
Proof.
  revert p. induction events as [|e events IH]; intros p Hp; simpl.
  - split; [assumption|apply extends_refl].
  - destruct (step_spec p e Hp) as [Hstep Hext].
    destruct (IH _ Hstep) as [Hrun Hext'].
    split; [assumption|eapply extends_trans; eassumption].
Qed.

Lemma results_none (results : list (FiringResult Out)) pane :
  pane ∉ map pane_of results ->
  List.filter (fun r => bool_decide (pane_of r = pane)) results = [].
Proof.
  induction results as [|r results IH]; simpl; intros Hnot; [reflexivity|].
  apply not_elem_of_cons in Hnot as [Hne Hrest].
  rewrite bool_decide_false by congruence. now apply IH.
Qed.

(** In a list without repeated panes a pane occurs at most once. *)
Lemma results_at_most_one (results : list (FiringResult Out)) pane :
  NoDup (map pane_of results) ->
  (length (List.filter (fun r => bool_decide (pane_of r = pane)) results) <= 1)%nat.
Proof.
  induction results as [|r results IH]; simpl; intros Hnodup; [lia|].
  apply NoDup_cons in Hnodup as [Hhead Hnodup].
  case_bool_decide as Hr; [|now apply IH].
  subst pane. rewrite (results_none results (pane_of r) Hhead).
  simpl. lia.
Qed.

Lemma results_for_extends k w p p' :
  has_fired p k w = true -> extends p p' ->
  results_for k w p' = results_for k w p.
Proof.
  unfold has_fired. intros Hfired (_ & new & Hemitted & Hnew).
  apply bool_decide_eq_true in Hfired.
  unfold results_for. rewrite Hemitted, List.filter_app.
  rewrite (results_none new (k, w)); [apply app_nil_r|].
  intros Hin. apply list_elem_of_fmap in Hin as (r & Hr & Hin).
  apply (Hnew r Hin). now rewrite <- Hr.
Qed.

End Firing.

(** ** Exactly-once firing and late records *)

(** C1: whatever records arrive and however the watermark advances, the
    output of a pipeline holds at most one result for a key and a window:
    [emit] is called at most once per (key, window), and with it the
    accumulator of that pair is extracted and discarded at most once. *)
Theorem emit_at_most_once
  {In Acc Out : Type} {Reducer : beam.CombineFn In Acc Out}
  (size : Z) (watermark : Timestamp) (events : list (Event In))
  (k : Key) (w : Window) :
  (length (results_for k w (run (initial size watermark : Pipeline Acc Out) events))
   <= 1)%nat
  /\ NoDup (emitted_panes (run (initial size watermark : Pipeline Acc Out) events)).
Proof.
  destruct (run_spec events _ (initial_consistent size watermark)) as [Hrun _].
  split; [|apply (emitted_once _ Hrun)].
  apply results_at_most_one, (emitted_once _ Hrun).
Qed.

(** C4: a record whose pane has already fired is dropped: ingesting it
    changes nothing but the count of late records, and from then on,
    whatever else happens, the results emitted for that pane stay the ones
    emitted before, the pane gets no accumulator again and stays fired. *)
Theorem late_record_dropped
  {In Acc Out : Type} {Reducer : beam.CombineFn In Acc Out}
  (size : Z) (watermark : Timestamp) (events : list (Event In))
  (r : InputRecord In) (w : Window) :
  assign (event_time r)
         (window_size (run (initial size watermark : Pipeline Acc Out) events))
  = Ok w ->
  has_fired (run (initial size watermark : Pipeline Acc Out) events) (key r) w = true ->
  step (run (initial size watermark : Pipeline Acc Out) events) (Ingest r)
  = mkPipeline
      (window_size (run (initial size watermark) events))
      (tracker (run (initial size watermark) events))
      (store (run (initial size watermark) events))
      (fired (run (initial size watermark) events))
      (emitted (run (initial size watermark) events))
      (S (late_dropped (run (initial size watermark) events)))
  /\ forall later : list (Event In),
      results_for (key r) w
        (run (step (run (initial size watermark : Pipeline Acc Out) events) (Ingest r))
             later)
      = results_for (key r) w (run (initial size watermark) events)
      /\ store (run (step (run (initial size watermark : Pipeline Acc Out) events)
                          (Ingest r)) later)
           !! (key r, w) = None
      /\ has_fired
           (run (step (run (initial size watermark : Pipeline Acc Out) events)
                      (Ingest r)) later)
           (key r) w = true.
Proof.
  set (p := run (initial size watermark : Pipeline Acc Out) events).
  intros Hassign Hfired.
  assert (Hdrop : step p (Ingest r)
                  = mkPipeline (window_size p) (tracker p) (store p) (fired p)
                               (emitted p) (S (late_dropped p))).
  { simpl. rewrite Hassign. unfold addRecord. now rewrite Hfired. }
  split; [exact Hdrop|].
  intros later.
  destruct (run_spec events _ (initial_consistent size watermark)) as [Hp _].
  fold p in Hp.
  destruct (step_spec p (Ingest r) Hp) as [Hstep Hext].
  destruct (run_spec later _ Hstep) as [Hrun Hext'].
  pose proof (extends_trans _ _ _ Hext Hext') as Hall.
  split; [now apply results_for_extends|].
  assert (Hstill : (key r, w) ∈ fired (run (step p (Ingest r)) later)).
  { unfold has_fired in Hfired. apply bool_decide_eq_true in Hfired.
    destruct Hall as [Hsub _]. now apply Hsub. }
  split.
  - destruct (store (run (step p (Ingest r)) later) !! (key r, w))
      as [acc|] eqn:Hlookup; [|reflexivity].
    exfalso. apply (open_not_fired _ Hrun (key r, w)); eauto.
  - unfold has_fired. now apply bool_decide_eq_true.
Qed.

Lemma late_record_dropped_witness :
  results_for "sensor_A" (mkWindow 0 60)
    (run (step (run (initial fixed_window_size (Finite 0)
                       : Pipeline Accumulator Statistics)
                    [Ingest (mkInputRecord "sensor_A" 20.0%float 0); Advance 60])
               (Ingest (mkInputRecord "sensor_A" 21.0%float 10)))
         [AdvanceToInfinity])
  = results_for "sensor_A" (mkWindow 0 60)
      (run (initial fixed_window_size (Finite 0))
           [Ingest (mkInputRecord "sensor_A" 20.0%float 0); Advance 60]).
Proof.
  apply (late_record_dropped fixed_window_size (Finite 0)
           [Ingest (mkInputRecord "sensor_A" 20.0%float 0); Advance 60]
           (mkInputRecord "sensor_A" 21.0%float 10) (mkWindow 0 60)).
  - vm_compute. reflexivity.
  - vm_compute. reflexivity.
Defined.

(** ** The run of [main.py] *)

(** The twelve readings fall into eight panes, five of sensor A and three
    of sensor B; each is emitted once, with the number of its readings, and
    nothing stays in the store. *)
Example run_pipeline_output :
  length (emitted run_pipeline) = 8%nat
  /\ map (fun pane =>
            map (fun r => count (statistics r))
                (results_for (fst pane) (mkWindow (snd pane) (snd pane + 60)) run_pipeline))
         [ ("sensor_A", 1678886400); ("sensor_A", 1678886460);
           ("sensor_A", 1678886520); ("sensor_A", 1678886580);
           ("sensor_A", 1678886640); ("sensor_B", 1678886400);
           ("sensor_B", 1678886460); ("sensor_B", 1678886520) ]
     = [[2]; [2]; [1]; [1]; [3]; [1]; [1]; [1]]
  /\ map_to_list (store run_pipeline) = []
  /\ late_dropped run_pipeline = 0%nat.
Proof. vm_compute. repeat split. Qed.

(** A reading of sensor A for the first minute that arrives after that
    minute has fired is counted as late and leaves the output as it was. *)
Example late_reading_is_counted :
  late_dropped
    (run run_pipeline [Ingest (mkInputRecord "sensor_A" 19.5%float 1678886405)])
  = 1%nat
  /\ emitted (run run_pipeline
                  [Ingest (mkInputRecord "sensor_A" 19.5%float 1678886405);
                   AdvanceToInfinity])
     = emitted run_pipeline.
Proof. vm_compute. split; reflexivity. Qed.

(** * Further properties of the combiner *)

(** ** Bundles and merging *)

Section Bundles.

Implicit Types (acc : Accumulator) (accs : list Accumulator)
         (bundles : list (list float)) (x : float).

Lemma map_add_all bundles : map add_all bundles = bundles.
Proof.
  induction bundles as [|values bundles IH]; simpl; [reflexivity|].
  now rewrite add_all_values, IH.
Qed.

Lemma len_app (xs ys : list float) : len (xs ++ ys) = len xs + len ys.
Proof. unfold len. rewrite length_app. lia. Qed.

Lemma len_concat accs :
  len (concat accs) = fold_right (fun acc n => len acc + n) 0 accs.
Proof.
  induction accs as [|acc accs IH]; simpl; [reflexivity|].
  now rewrite len_app, IH.
Qed.

Lemma concat_without_empty accs :
  concat (List.filter (fun acc => negb (len acc =? 0)) accs) = concat accs.
Proof.
  induction accs as [|acc accs IH]; simpl; [reflexivity|].
  destruct acc as [|x acc]; [exact IH|].
  assert (Hlen : (len (x :: acc) =? 0) = false)
    by (apply Z.eqb_neq; unfold len; simpl; lia).
  rewrite Hlen. simpl. now rewrite IH.
Qed.

End Bundles.

(** X1: however the readings of a pane are split into bundles, merging the
    accumulators of the bundles gives the accumulator of adding all the
    readings one after the other, and so the same output. *)
Theorem merge_of_bundles (bundles : list (list float)) :
  merge_accumulators (map add_all bundles) = add_all (concat bundles)
  /\ extract_output (merge_accumulators (map add_all bundles))
     = extract_output (add_all (concat bundles)).
Proof.
  assert (Hacc : merge_accumulators (map add_all bundles) = add_all (concat bundles)).
  { now rewrite merge_accumulators_concat, map_add_all, add_all_values. }
  split; [exact Hacc|now rewrite Hacc].
Qed.

(** X2: merging may be nested in any way: merging the results of merging
    groups of accumulators is merging all the accumulators at once, and
    adding a reading after a merge is merging with the accumulator of that
    reading alone. *)
Theorem merge_accumulators_nested (groups : list (list Accumulator))
        (accs : list Accumulator) (x : float) :
  merge_accumulators (map merge_accumulators groups)
  = merge_accumulators (concat groups)
  /\ add_input (merge_accumulators accs) x
     = merge_accumulators (accs ++ [add_input create_accumulator x]).
Proof.
  split.
  - rewrite !merge_accumulators_concat.
    induction groups as [|group groups IH]; simpl; [reflexivity|].
    now rewrite merge_accumulators_concat, concat_app, IH.
  - rewrite !merge_accumulators_concat, concat_app.
    unfold add_input, create_accumulator. simpl.
    now rewrite ?app_nil_r.
Qed.

(** X3: empty accumulators do not count in a merge: merging nothing gives
    the fresh accumulator, and dropping the empty accumulators from the list
    merged changes nothing. *)
Theorem merge_accumulators_ignores_empty (accs : list Accumulator) :
  merge_accumulators [] = create_accumulator
  /\ merge_accumulators (List.filter (fun acc => negb (len acc =? 0)) accs)
     = merge_accumulators accs
  /\ merge_accumulators (create_accumulator :: accs) = merge_accumulators accs
  /\ merge_accumulators (accs ++ [create_accumulator]) = merge_accumulators accs.
Proof.
  rewrite !merge_accumulators_concat.
  split; [reflexivity|].
  split; [apply concat_without_empty|].
  split; [reflexivity|].
  rewrite concat_app. unfold create_accumulator. simpl.
  now rewrite ?app_nil_r.
Qed.

(** X4: the count reported is the number of readings added: it grows by one
    with every [add_input], the count of a merge is the sum of the counts
    merged, and it is zero for the empty accumulator only. *)
Theorem count_is_number_of_readings (acc : Accumulator) (x : float)
        (accs : list Accumulator) (values : list float) :
  count (extract (add_input acc x)) = count (extract acc) + 1
  /\ count (extract (add_all values)) = len values
  /\ count (extract (merge_accumulators accs))
     = fold_right (fun a n => count (extract a) + n) 0 accs
  /\ (count (extract acc) = 0 <-> acc = create_accumulator)
  /\ 0 <= count (extract acc).
Proof.
  rewrite !count_extract, add_all_values, merge_accumulators_concat.
  split; [unfold add_input; rewrite len_app; reflexivity|].
  split; [reflexivity|].
  split.
  { rewrite len_concat. induction accs as [|a accs IH]; simpl; [reflexivity|].
    now rewrite count_extract, IH. }
  split; [|unfold len; lia].
  unfold len, create_accumulator.
  destruct acc as [|y acc]; simpl; split; intros H; try reflexivity;
    try discriminate; lia.
Qed.

(** X5: merging the same accumulators in another order gives the same
    readings in another order, and the same count. *)
Theorem merge_accumulators_permutation (accs accs' : list Accumulator) :
  Permutation accs accs' ->
  Permutation (merge_accumulators accs) (merge_accumulators accs')
  /\ count (extract (merge_accumulators accs))
     = count (extract (merge_accumulators accs')).
Proof.
  intros Hperm.
  assert (Hmerged : Permutation (merge_accumulators accs) (merge_accumulators accs')).
  { rewrite !merge_accumulators_concat.
    induction Hperm as [|a l l' _ IH|a b l|l l' l'' _ IH1 _ IH2]; simpl.
    - constructor.
    - now apply Permutation_app_head.
    - rewrite !app_assoc. apply Permutation_app_tail, Permutation_app_comm.
    - now transitivity (concat l'). }
  split; [exact Hmerged|].
  rewrite !count_extract. unfold len.
  now rewrite (Permutation_length Hmerged).
Qed.

Lemma merge_accumulators_permutation_witness :
  Permutation [[20.0%float]; [25.0%float; 20.5%float]]
              [[25.0%float; 20.5%float]; [20.0%float]]
  /\ Permutation (merge_accumulators [[20.0%float]; [25.0%float; 20.5%float]])
                 (merge_accumulators [[25.0%float; 20.5%float]; [20.0%float]]).
Proof.
  assert (Hperm : Permutation [[20.0%float]; [25.0%float; 20.5%float]]
                              [[25.0%float; 20.5%float]; [20.0%float]])
    by apply perm_swap.
  split; [exact Hperm|].
  exact (proj1 (merge_accumulators_permutation _ _ Hperm)).
Defined.

(** ** Division by one

    The quotient of a float by 1.0 is the float: the division core returns
    the mantissa, doubled for a normal number, with nothing to round. *)

Section DivisionByOne.

Lemma div_core_one m e :
  e <= 971 ->
  ((Z.pos (digits2_pos m) = 53 /\ -1074 <= e)
   \/ (Z.pos (digits2_pos m) < 53 /\ e = -1074)) ->
  SFdiv_core_binary prec emax (Z.pos m) e 4503599627370496 (-52)
  = if (e =? -1074) then (Z.pos m, e, loc_Exact)
    else (Z.pos m~0, e - 1, loc_Exact).
Proof.
  intros He Hcases. unfold SFdiv_core_binary.
  change (Zdigits2 4503599627370496) with 53.
  cbn [Zdigits2].
  set (d := Z.pos (digits2_pos m)) in *.
  destruct (e =? -1074) eqn:Hmin.
  - apply Z.eqb_eq in Hmin. subst e.
    replace (fexp prec emax (d + -1074 - (53 + -52)) `min` (-1074 - -52)) with (-1074)
      by (unfold fexp, SpecFloat.emin, prec, emax; lia).
    change (-1074 - -52 - -1074) with 52.
    cbv iota beta.
    assert (Hdiv : Z.div_eucl (Z.pos m ≪ 52) 4503599627370496 = (Z.pos m, 0)).
    { rewrite Z.shiftl_mul_pow2 by lia.
      change (2 ^ 52) with 4503599627370496.
      pose proof (Z.div_eucl_eq (Z.pos m * 4503599627370496) 4503599627370496) as Heq.
      pose proof (Z.mod_pos_bound (Z.pos m * 4503599627370496) 4503599627370496) as Hb.
      unfold Z.modulo, Z.div in *.
      destruct (Z.div_eucl _ _) as [q r]. simpl in *.
      assert (q = Z.pos m /\ r = 0) as [-> ->] by nia. reflexivity. }
    rewrite Hdiv. reflexivity.
  - apply Z.eqb_neq in Hmin.
    assert (Hd : d = 53) by lia.
    replace (fexp prec emax (d + e - (53 + -52)) `min` (e - -52)) with (e - 1)
      by (unfold fexp, SpecFloat.emin, prec, emax; lia).
    replace (e - -52 - (e - 1)) with 53 by lia.
    cbv iota beta.
    assert (Hdiv : Z.div_eucl (Z.pos m ≪ 53) 4503599627370496 = (Z.pos m~0, 0)).
    { rewrite Z.shiftl_mul_pow2 by lia.
      change (2 ^ 53) with 9007199254740992.
      pose proof (Z.div_eucl_eq (Z.pos m * 9007199254740992) 4503599627370496) as Heq.
      pose proof (Z.mod_pos_bound (Z.pos m * 9007199254740992) 4503599627370496) as Hb.
      unfold Z.modulo, Z.div in *.
      destruct (Z.div_eucl _ _) as [q r]. simpl in *.
      assert (q = Z.pos m~0 /\ r = 0) as [-> ->] by nia. reflexivity. }
    rewrite Hdiv. reflexivity.
Qed.

Lemma shr_fexp_exact m e :
  fexp prec emax (Z.pos (digits2_pos m) + e) = e ->
  shr_fexp prec emax (Z.pos m) e loc_Exact
  = (Build_shr_record (Z.pos m) false false, e).
Proof.
  intros Hf. unfold shr_fexp. cbn [Zdigits2]. rewrite Hf, Z.sub_diag.
  reflexivity.
Qed.

Lemma binary_round_aux_exact s m e :
  fexp prec emax (Z.pos (digits2_pos m) + e) = e -> e <= 971 ->
  binary_round_aux prec emax s (Z.pos m) e loc_Exact = S754_finite s m e.
Proof.
  intros Hf He. unfold binary_round_aux.
  rewrite (shr_fexp_exact m e Hf).
  cbn [shr_m loc_of_shr_record round_nearest_even].
  rewrite (shr_fexp_exact m e Hf). cbn [shr_m].
  destruct (e <=? emax - prec) eqn:Hle; [reflexivity|].
  unfold emax, prec in Hle. lia.
Qed.

Lemma binary_round_aux_doubled s m e :
  Z.pos (digits2_pos m) = 53 -> -1074 < e <= 971 ->
  binary_round_aux prec emax s (Z.pos m~0) (e - 1) loc_Exact = S754_finite s m e.
Proof.
  intros Hd He.
  assert (Hf : fexp prec emax (Z.pos (digits2_pos m) + e) = e)
    by (unfold fexp, SpecFloat.emin, prec, emax; lia).
  assert (Hshr : shr_fexp prec emax (Z.pos m~0) (e - 1) loc_Exact
                 = (Build_shr_record (Z.pos m) false false, e)).
  { unfold shr_fexp. cbn [Zdigits2 digits2_pos].
    replace (fexp prec emax (Z.pos (Pos.succ (digits2_pos m)) + (e - 1)) - (e - 1))
      with 1 by (unfold fexp, SpecFloat.emin, prec, emax; lia).
    cbn. f_equal. lia. }
  unfold binary_round_aux. rewrite Hshr.
  cbn [shr_m loc_of_shr_record round_nearest_even].
  rewrite (shr_fexp_exact m e Hf). cbn [shr_m].
  destruct (e <=? emax - prec) eqn:Hle; [reflexivity|].
  unfold emax, prec in Hle. lia.
Qed.

Lemma valid_finite_cases s m e :
  valid_binary (S754_finite s m e) = true ->
  e <= 971 /\ ((Z.pos (digits2_pos m) = 53 /\ -1074 <= e)
               \/ (Z.pos (digits2_pos m) < 53 /\ e = -1074)).
Proof.
  unfold SpecFloat.valid_binary, bounded, canonical_mantissa, fexp, SpecFloat.emin, prec, emax.
  intros H. apply andb_prop in H as [Hc He].
  apply Z.eqb_eq in Hc. apply Z.leb_le in He. lia.
Qed.

Lemma SF64div_one x : valid_binary x = true -> SF64div x sf_one = x.
Proof.
  destruct x as [s|s| |s m e]; intros Hvalid; try (now destruct s); try reflexivity.
  apply valid_finite_cases in Hvalid as [He Hcases].
  unfold SF64div, SFdiv, sf_one.
  rewrite (div_core_one m e He Hcases), xorb_false_r.
  destruct (e =? -1074) eqn:Hmin.
  - apply Z.eqb_eq in Hmin. apply binary_round_aux_exact; [|assumption].
    unfold fexp, SpecFloat.emin, prec, emax. lia.
  - apply Z.eqb_neq in Hmin. apply binary_round_aux_doubled; lia.
Qed.

Lemma div_one (x : float) : (x / 1)%float = x.
Proof.
  apply Prim2SF_inj. rewrite div_spec.
  change (Prim2SF 1) with sf_one.
  apply SF64div_one, Prim2SF_valid.
Qed.

End DivisionByOne.

(** ** NaN and infinite readings *)

Section NonFiniteReadings.

Implicit Types (acc values : list float) (x y : spec_float).

Lemma is_nan_iff (v : float) : PrimFloat.is_nan v = true <-> Prim2SF v = S754_nan.
Proof.
  rewrite is_nan_spec. destruct (Prim2SF v); split; congruence.
Qed.

Lemma SF64add_nan_l y : SF64add S754_nan y = S754_nan.
Proof. reflexivity. Qed.

Lemma SF64add_nan_r x : SF64add x S754_nan = S754_nan.
Proof. now destruct x. Qed.

Lemma SF64sub_nan_r x : SF64sub x S754_nan = S754_nan.
Proof. now destruct x. Qed.

Lemma SF64div_nan_r x : SF64div x S754_nan = S754_nan.
Proof. now destruct x. Qed.

(** A NaN among the elements makes every sum of them a NaN, whatever the
    order and the grouping of the additions. *)
Lemma sums_nan values (s : float) :
  sums values s ->
  Exists (fun v => Prim2SF v = S754_nan) values ->
  Prim2SF s = S754_nan.
Proof.
  induction 1 as [|x|l1 l2 s1 s2 H1 IH1 H2 IH2|l l' s Hperm H IH]; intros Hex.
  - inversion Hex.
  - inversion Hex as [? ? Hx|? ? Hx]; subst; [exact Hx|inversion Hx].
  - rewrite add_spec. apply List.Exists_app in Hex. destruct Hex as [Hex|Hex].
    + rewrite (IH1 Hex). apply SF64add_nan_l.
    + rewrite (IH2 Hex). apply SF64add_nan_r.
  - apply IH. apply List.Exists_exists in Hex. destruct Hex as [v [Hin Hv]].
    apply List.Exists_exists. exists v. split; [|exact Hv].
    eapply Permutation_in; [symmetry; exact Hperm|exact Hin].
Qed.

Lemma np_mean_nan values :
  Exists (fun v => Prim2SF v = S754_nan) values ->
  Prim2SF (value_of (np_mean values)) = S754_nan.
Proof.
  intros Hex. rewrite np_mean_value, div_spec.
  now rewrite (sums_nan _ _ (np_sum_sums values) Hex).
Qed.

Lemma np_var_value (ddof : Z) values :
  value_of (np_var ddof values)
  = PrimFloat.div
      (np_sum (map (fun v => PrimFloat.mul
                               (PrimFloat.sub v (value_of (np_mean values)))
                               (PrimFloat.sub v (value_of (np_mean values)))) values))
      (float_of_count (Z.max (len values - ddof) 0)).
Proof. reflexivity. Qed.

Lemma np_std_value (ddof : Z) values :
  value_of (np_std ddof values) = PrimFloat.sqrt (value_of (np_var ddof values)).
Proof. reflexivity. Qed.

(** [stats.tstd] hands back NaN for an array with a NaN. *)
Lemma stats_tstd_with_nan (P : Power) values :
  contains_nan values = true -> value_of (stats_tstd_with P values) = PrimFloat.nan.
Proof.
  intros Hnan. destruct values as [|v values]; [reflexivity|].
  unfold stats_tstd_with. now rewrite Hnan.
Qed.

Lemma contains_nan_element values :
  Exists (fun v => PrimFloat.is_nan v = true) values -> contains_nan values = true.
Proof.
  unfold contains_nan. intros Hex. apply existsb_exists.
  apply List.Exists_exists in Hex. exact Hex.
Qed.

Lemma SF64div_finite_inv x y : sf_finite (SF64div x y) = true -> sf_finite x = true.
Proof.
  destruct x as [sx|sx| |sx mx ex]; try reflexivity;
    destruct y as [sy|sy| |sy my ey]; simpl; discriminate.
Qed.

End NonFiniteReadings.

(** X6: one NaN among the readings makes the mean, the standard deviation
    and the variance NaN, while the count still counts every reading. *)
Theorem nan_reading_poisons_statistics (acc : Accumulator) :
  Exists (fun v => PrimFloat.is_nan v = true) acc ->
  count (extract acc) = len acc
  /\ PrimFloat.is_nan (mean (extract acc)) = true
  /\ PrimFloat.is_nan (std_dev (extract acc)) = true
  /\ PrimFloat.is_nan (variance (extract acc)) = true.
Proof.
  intros Hex.
  assert (Hacc : acc <> []) by (intros ->; inversion Hex).
  assert (Hex' : Exists (fun v => Prim2SF v = S754_nan) acc).
  { eapply Exists_impl; [exact Hex|]. intros v. apply is_nan_iff. }
  pose proof (np_mean_nan acc Hex') as Hmean.
  split; [apply count_extract|].
  rewrite (extract_nonempty acc Hacc). cbn [mean std_dev variance].
  rewrite !is_nan_iff.
  split; [exact Hmean|]. split.
  - unfold stats_tstd.
    now rewrite (stats_tstd_with_nan _ acc (contains_nan_element acc Hex)).
  - rewrite (stats_variation_nonempty acc Hacc). unfold square.
    rewrite mul_spec, div_spec, Hmean, SF64div_nan_r. reflexivity.
Qed.

Lemma nan_reading_poisons_statistics_witness :
  Exists (fun v => PrimFloat.is_nan v = true) [20.0%float; PrimFloat.nan]
  /\ count (extract [20.0%float; PrimFloat.nan]) = 2
  /\ PrimFloat.is_nan (mean (extract [20.0%float; PrimFloat.nan])) = true.
Proof.
  assert (Hex : Exists (fun v => PrimFloat.is_nan v = true) [20.0%float; PrimFloat.nan])
    by (right; left; reflexivity).
  destruct (nan_reading_poisons_statistics _ Hex) as (Hcount & Hmean & _).
  split; [exact Hex|]. split; [exact Hcount|exact Hmean].
Defined.

(** X7: when the mean is finite, every reading is finite: an infinite or
    NaN reading always shows in the mean. *)
Theorem finite_mean_finite_readings (acc : Accumulator) :
  PrimFloat.is_finite (mean (extract acc)) = true ->
  Forall (fun v => PrimFloat.is_finite v = true) acc.
Proof.
  destruct acc as [|x rest]; [constructor|].
  set (acc := x :: rest). intros Hfinite.
  rewrite (extract_nonempty acc) in Hfinite by discriminate.
  cbn [mean] in Hfinite.
  rewrite is_finite_spec, np_mean_value, div_spec in Hfinite.
  apply SF64div_finite_inv in Hfinite.
  pose proof (sums_finite_inv acc _ (np_sum_sums acc) Hfinite) as Hall.
  eapply Forall_impl; [exact Hall|].
  intros v Hv. now rewrite is_finite_spec.
Qed.

Lemma finite_mean_finite_readings_witness :
  PrimFloat.is_finite (mean (extract [20.0%float; 20.5%float])) = true
  /\ Forall (fun v => PrimFloat.is_finite v = true) [20.0%float; 20.5%float].
Proof.
  assert (H : PrimFloat.is_finite (mean (extract [20.0%float; 20.5%float])) = true)
    by reflexivity.
  split; [exact H|exact (finite_mean_finite_readings _ H)].
Defined.

(** ** Signs of the statistics *)

Section Signs.

Implicit Types (x : spec_float) (v : float).

Lemma SF64sqrt_nan_or_nonneg x :
  SF64sqrt x = S754_nan \/ sf_nonneg (SF64sqrt x) = true.
Proof.
  destruct x as [s|[]| |[] m e]; try (now left); try (now right).
  right. now apply SF64sqrt_nonneg.
Qed.

Lemma SF64mul_self_nan_or_nonneg x :
  SF64mul x x = S754_nan \/ sf_nonneg (SF64mul x x) = true.
Proof.
  destruct x as [s|s| |s m e].
  - right. reflexivity.
  - right. now destruct s.
  - now left.
  - right. now apply SF64mul_self_nonneg.
Qed.

Lemma sf_nonneg_leb v : sf_nonneg (Prim2SF v) = true -> PrimFloat.leb 0 v = true.
Proof.
  rewrite leb_spec. change (Prim2SF 0) with (S754_zero false).
  now destruct (Prim2SF v) as [s|[]| |[] m e].
Qed.

Lemma nan_or_nonneg_float v :
  Prim2SF v = S754_nan \/ sf_nonneg (Prim2SF v) = true ->
  PrimFloat.is_nan v || PrimFloat.leb 0 v = true.
Proof.
  intros [Hnan|Hpos]; apply orb_true_iff.
  - left. now apply is_nan_iff.
  - right. now apply sf_nonneg_leb.
Qed.

End Signs.

(** X8: whatever the readings, the standard deviation and the variance
    returned are never negative: each is NaN or at least zero. *)
Theorem std_dev_variance_never_negative (acc : Accumulator) :
  PrimFloat.is_nan (std_dev (extract acc))
  || PrimFloat.leb 0 (std_dev (extract acc)) = true
  /\ PrimFloat.is_nan (variance (extract acc))
     || PrimFloat.leb 0 (variance (extract acc)) = true.
Proof.
  destruct acc as [|x rest]; [split; reflexivity|].
  set (acc := x :: rest).
  rewrite (extract_nonempty acc) by discriminate. cbn [std_dev variance].
  split; apply nan_or_nonneg_float.
  - destruct (contains_nan acc) eqn:Hnan.
    + unfold stats_tstd. rewrite (stats_tstd_with_nan _ acc Hnan). now left.
    + unfold stats_tstd.
      rewrite (stats_tstd_with_value _ acc) by (try discriminate; exact Hnan).
      cbn [pow_half correctly_rounded].
      rewrite sqrt_spec. apply SF64sqrt_nan_or_nonneg.
  - unfold square. rewrite mul_spec. apply SF64mul_self_nan_or_nonneg.
Qed.

(** ** A single reading *)

Section SingleReading.

Implicit Types (x : float).

Lemma SF64sub_diag_finite s m e :
  SF64sub (S754_finite s m e) (S754_finite s m e) = S754_zero false.
Proof.
  unfold SF64sub, SFsub. now rewrite Z.sub_diag.
Qed.

(** Adding a finite number other than zero to [0.0] leaves it as it is. *)
Lemma add_zero_finite x :
  PrimFloat.is_finite x = true -> PrimFloat.is_zero x = false ->
  PrimFloat.add 0 x = x.
Proof.
  rewrite is_finite_spec, is_zero_spec. intros Hfinite Hnonzero.
  apply Prim2SF_inj. rewrite add_spec, Prim2SF_zero.
  now destruct (Prim2SF x) as [s|s| |s m e].
Qed.

Lemma sub_diag_finite x :
  PrimFloat.is_finite x = true -> PrimFloat.is_zero x = false ->
  PrimFloat.sub x x = 0%float.
Proof.
  rewrite is_finite_spec, is_zero_spec. intros Hfinite Hnonzero.
  apply Prim2SF_inj. rewrite sub_spec, Prim2SF_zero.
  destruct (Prim2SF x) as [s|s| |s m e]; try discriminate.
  apply SF64sub_diag_finite.
Qed.

(** The square of [0.0] divided by a finite number other than zero is
    [0.0], whatever the sign of the divisor. *)
Lemma square_zero_quotient x :
  PrimFloat.is_finite x = true -> PrimFloat.is_zero x = false ->
  square (PrimFloat.div 0 x) = 0%float.
Proof.
  rewrite is_finite_spec, is_zero_spec. intros Hfinite Hnonzero.
  apply Prim2SF_inj. unfold square. rewrite mul_spec, div_spec, Prim2SF_zero.
  destruct (Prim2SF x) as [s|s| |s m e]; try discriminate.
  now destruct s.
Qed.

Lemma np_sum_single x : np_sum [x] = PrimFloat.add 0 (PrimFloat.add 0 x).
Proof. now rewrite np_sum_small by (simpl; lia). Qed.

(** The mean of one finite reading other than zero is the reading. *)
Lemma np_mean_single x :
  PrimFloat.is_finite x = true -> PrimFloat.is_zero x = false ->
  value_of (np_mean [x]) = x.
Proof.
  intros Hfinite Hnonzero. rewrite np_mean_value, np_sum_single.
  rewrite (add_zero_finite x Hfinite Hnonzero), (add_zero_finite x Hfinite Hnonzero).
  change (float_of_count (len [x])) with 1%float. apply div_one.
Qed.

(** The factor of the sample variance of one value is NaN, and so is the
    variance. *)
Lemma xp_var_single x :
  contains_nan [x] = false -> value_of (xp_var 1 [x]) = PrimFloat.nan.
Proof.
  intros Hnan. rewrite (xp_var_value [x] Hnan).
  change (0 <? len [x] - 1) with false. cbv iota.
  apply Prim2SF_inj. rewrite mul_spec.
  change (Prim2SF PrimFloat.nan) with S754_nan.
  now destruct (Prim2SF _).
Qed.

End SingleReading.

(** X9: with a single reading the count is 1 and the standard deviation is
    NaN, whatever the reading.  When the reading is finite and not zero,
    the mean is the reading itself and the variance entry is 0.0. *)
Theorem single_reading_statistics (x : float) :
  count (extract (add_input create_accumulator x)) = 1
  /\ PrimFloat.is_nan (std_dev (extract (add_input create_accumulator x))) = true
  /\ (PrimFloat.is_finite x = true -> PrimFloat.is_zero x = false ->
      mean (extract (add_input create_accumulator x)) = x
      /\ variance (extract (add_input create_accumulator x)) = 0%float).
Proof.
  change (add_input create_accumulator x) with [x].
  split; [reflexivity|].
  split.
  { rewrite (extract_nonempty [x]) by discriminate. cbn [std_dev].
    unfold stats_tstd. destruct (contains_nan [x]) eqn:Hnan.
    - now rewrite (stats_tstd_with_nan _ [x] Hnan).
    - rewrite (stats_tstd_with_value _ [x]) by (try discriminate; exact Hnan).
      now rewrite (xp_var_single x Hnan). }
  intros Hfinite Hnonzero.
  rewrite (extract_nonempty [x]) by discriminate. cbn [mean variance].
  split; [now apply np_mean_single|].
  rewrite (stats_variation_nonempty [x]) by discriminate.
  rewrite np_std_value, np_var_value.
  rewrite (np_mean_single x Hfinite Hnonzero).
  cbn [map]. rewrite (sub_diag_finite x Hfinite Hnonzero).
  change (float_of_count (Z.max (len [x] - 0) 0)) with 1%float.
  rewrite div_one.
  change (PrimFloat.sqrt (np_sum [PrimFloat.mul 0 0])) with 0%float.
  now apply square_zero_quotient.
Qed.

Lemma single_reading_statistics_witness :
  PrimFloat.is_finite 22.0%float = true
  /\ PrimFloat.is_zero 22.0%float = false
  /\ mean (extract (add_input create_accumulator 22.0%float)) = 22.0%float
  /\ variance (extract (add_input create_accumulator 22.0%float)) = 0%float.
Proof.
  assert (Hfinite : PrimFloat.is_finite 22.0%float = true) by reflexivity.
  assert (Hnonzero : PrimFloat.is_zero 22.0%float = false) by reflexivity.
  destruct (single_reading_statistics 22.0%float) as (_ & _ & Hstats).
  split; [exact Hfinite|]. split; [exact Hnonzero|].
  exact (Hstats Hfinite Hnonzero).
Defined.

(** ** Sharing between accumulators *)

Section Sharing.

Implicit Types (h : gmap positive (list float)) (r acc merged : positive)
         (values : list float).

Lemma contents_insert_eq h r values : Objects.contents (<[r := values]> h) r = values.
Proof. unfold Objects.contents. now rewrite lookup_insert_eq. Qed.

Lemma contents_alter_eq (f : list float -> list float) h r :
  is_Some (h !! r) ->
  Objects.contents (alter f r h) r = f (Objects.contents h r).
Proof.
  intros [values Hr]. unfold Objects.contents.
  now rewrite lookup_alter_eq, Hr.
Qed.

Lemma lookup_alter_other (f : list float -> list float) h r r' :
  r <> r' -> alter f r h !! r' = h !! r'.
Proof. intros Hne. now rewrite lookup_alter_ne. Qed.

(** The loop of [merge_accumulators]: [merged] collects the lists of the
    accumulators, every other object stays as it was. *)
Lemma extend_loop_heap (accumulators : list positive) merged h0 h collected :
  merged ∉ dom h0 ->
  Forall (fun acc => acc ∈ dom h0) accumulators ->
  h !! merged = Some collected ->
  (forall r, r <> merged -> h !! r = h0 !! r) ->
  let h' := fold_left
              (fun h' acc => alter (fun values => values ++ Objects.contents h' acc) merged h')
              accumulators h in
  h' !! merged = Some (collected ++ concat (map (Objects.contents h0) accumulators))
  /\ (forall r, r <> merged -> h' !! r = h0 !! r).
Proof.
  intros Hfresh Hall. revert h collected.
  induction Hall as [|acc accumulators Hacc _ IH]; intros h collected Hmerged Hothers;
    simpl.
  - rewrite app_nil_r. now split.
  - assert (Hne : acc <> merged) by (intros ->; contradiction).
    assert (Hsame : Objects.contents h acc = Objects.contents h0 acc).
    { unfold Objects.contents. now rewrite Hothers. }
    rewrite app_assoc, <- Hsame. apply IH.
    + now rewrite lookup_alter_eq, Hmerged.
    + intros r Hr. rewrite lookup_alter_ne by congruence. now apply Hothers.
Qed.

End Sharing.

(** X11: [add_input] works in place: it returns the reference it was given,
    the list behind it has the element appended, as the pure [add_input]
    computes, and no other object of the heap changes. *)
Theorem add_input_in_place (h : gmap positive (list float)) (accumulator : positive)
        (element : float) :
  accumulator ∈ dom h ->
  fst (Objects.add_input accumulator element h) = accumulator
  /\ Objects.contents (snd (Objects.add_input accumulator element h)) accumulator
     = add_input (Objects.contents h accumulator) element
  /\ (forall other : positive,
         other <> accumulator ->
         snd (Objects.add_input accumulator element h) !! other = h !! other)
  /\ dom (snd (Objects.add_input accumulator element h)) = dom h.
Proof.
  intros Hin. apply elem_of_dom in Hin.
  split; [reflexivity|]. simpl. split.
  - now rewrite contents_alter_eq.
  - split.
    + intros other Hne. now rewrite lookup_alter_ne.
    + apply dom_alter_L.
Qed.

Lemma add_input_in_place_witness :
  (1%positive) ∈ dom ({[ 1%positive := [20.0%float] ]} : gmap positive (list float))
  /\ Objects.contents
       (snd (Objects.add_input 1%positive 20.5%float {[ 1%positive := [20.0%float] ]}))
       1%positive
     = add_input [20.0%float] 20.5%float.
Proof.
  assert (Hin : (1%positive) ∈ dom ({[ 1%positive := [20.0%float] ]}
                                     : gmap positive (list float)))
    by (apply elem_of_dom; eexists; apply lookup_singleton_eq).
  split; [exact Hin|].
  destruct (add_input_in_place _ 1%positive 20.5%float Hin) as (_ & Hcontents & _).
  rewrite Hcontents. unfold Objects.contents. now rewrite lookup_singleton_eq.
Defined.

(** X12: [merge_accumulators] returns a new list and leaves its arguments
    alone: the reference returned was not in the heap, the list behind it
    is the pure merge of the lists of the arguments, also when the same
    accumulator is passed twice, and every object that was in the heap is
    unchanged, so that adding to the merged accumulator later cannot reach
    them. *)
Theorem merge_accumulators_fresh (h : gmap positive (list float))
        (accumulators : list positive) :
  Forall (fun acc => acc ∈ dom h) accumulators ->
  (fst (Objects.merge_accumulators accumulators h) ∉ dom h)
  /\ Objects.contents (snd (Objects.merge_accumulators accumulators h))
                      (fst (Objects.merge_accumulators accumulators h))
     = merge_accumulators (map (Objects.contents h) accumulators)
  /\ (forall r : positive,
         r ∈ dom h ->
         snd (Objects.merge_accumulators accumulators h) !! r = h !! r)
  /\ (forall (r : positive) (element : float),
         r ∈ dom h ->
         snd (Objects.add_input (fst (Objects.merge_accumulators accumulators h)) element
                                (snd (Objects.merge_accumulators accumulators h))) !! r
         = h !! r).
Proof.
  intros Hall.
  set (merged := fresh (dom h)).
  assert (Hfresh : merged ∉ dom h) by apply is_fresh.
  destruct (extend_loop_heap accumulators merged h (<[merged := []]> h) [] Hfresh Hall)
    as [Hmerged Hothers].
  { apply lookup_insert_eq. }
  { intros r Hr. now rewrite lookup_insert_ne. }
  assert (Hold : forall r, r ∈ dom h -> r <> merged)
    by (intros r Hr ->; contradiction).
  split; [exact Hfresh|]. split; [|split].
  - unfold Objects.contents at 1. simpl. fold merged. rewrite Hmerged. simpl.
    now rewrite merge_accumulators_concat.
  - intros r Hr. simpl. fold merged. apply Hothers. now apply Hold.
  - intros r element Hr. simpl. fold merged.
    rewrite lookup_alter_ne by (apply not_eq_sym; now apply Hold).
    apply Hothers. now apply Hold.
Qed.

Lemma merge_accumulators_fresh_witness :
  Forall (fun acc => acc ∈ dom ({[ 1%positive := [20.0%float] ]}
                                 : gmap positive (list float)))
         [1%positive; 1%positive]
  /\ Objects.contents
       (snd (Objects.merge_accumulators [1%positive; 1%positive]
                                        {[ 1%positive := [20.0%float] ]}))
       (fst (Objects.merge_accumulators [1%positive; 1%positive]
                                        {[ 1%positive := [20.0%float] ]}))
     = [20.0%float; 20.0%float].
Proof.
  assert (Hin : (1%positive) ∈ dom ({[ 1%positive := [20.0%float] ]}
                                     : gmap positive (list float)))
    by (apply elem_of_dom; eexists; apply lookup_singleton_eq).
  assert (Hall : Forall (fun acc => acc ∈ dom ({[ 1%positive := [20.0%float] ]}
                                                : gmap positive (list float)))
                        [1%positive; 1%positive])
    by (repeat constructor; exact Hin).
  split; [exact Hall|].
  destruct (merge_accumulators_fresh _ _ Hall) as (_ & Hcontents & _).
  rewrite Hcontents. unfold Objects.contents. simpl.
  now rewrite lookup_singleton_eq.
Defined.

Lemma add_inputs_loop (values : list float) (r : positive)
      (h : gmap positive (list float)) :
  is_Some (h !! r) ->
  fst (Objects.add_inputs r values h) = r
  /\ Objects.contents (snd (Objects.add_inputs r values h)) r
     = Objects.contents h r ++ values
  /\ (forall other : positive,
         other <> r -> snd (Objects.add_inputs r values h) !! other = h !! other).
Proof.
  unfold Objects.add_inputs. revert h.
  induction values as [|v values IH]; intros h Hr.
  - simpl. rewrite app_nil_r. now repeat split.
  - cbn [fold_left fst snd].
    change (Objects.add_input r v h) with (r, alter (fun l => l ++ [v]) r h).
    destruct (IH (alter (fun l => l ++ [v]) r h)) as (Hfst & Hcontents & Hothers).
    { rewrite lookup_alter_eq. destruct Hr as [l ->]. simpl. eauto. }
    split; [exact Hfst|]. split.
    + rewrite Hcontents, contents_alter_eq by assumption.
      now rewrite <- app_assoc.
    + intros other Hne. rewrite Hothers by assumption.
      now rewrite lookup_alter_ne.
Qed.

(** X13: the pure functions describe the Python objects: a list created by
    [create_accumulator] is new to the heap, and after any sequence of
    [add_input] calls on it the same reference holds exactly the list
    [add_all] computes, [extract_output] on it returns what the pure
    [extract_output] returns for that list, and no object that existed
    before has changed. *)
Theorem objects_refine_lists (h : gmap positive (list float)) (values : list float) :
  let created := Objects.create_accumulator h in
  let added := Objects.add_inputs (fst created) values (snd created) in
  (fst created ∉ dom h)
  /\ fst added = fst created
  /\ Objects.contents (snd added) (fst added) = add_all values
  /\ Objects.extract_output (fst added) (snd added)
     = (extract_output (add_all values), snd added)
  /\ (forall r : positive, r ∈ dom h -> snd added !! r = h !! r).
Proof.
  cbv zeta. unfold Objects.create_accumulator. cbn [fst snd].
  set (new := fresh (dom h)).
  assert (Hfresh : new ∉ dom h) by apply is_fresh.
  destruct (add_inputs_loop values new (<[new := []]> h))
    as (Hfst & Hcontents & Hothers).
  { rewrite lookup_insert_eq. eauto. }
  rewrite contents_insert_eq in Hcontents. simpl in Hcontents.
  split; [exact Hfresh|]. split; [exact Hfst|].
  rewrite Hfst. split; [now rewrite Hcontents, add_all_values|].
  split.
  - unfold Objects.extract_output. now rewrite Hcontents, add_all_values.
  - intros r Hr.
    assert (Hne : r <> new) by (intros ->; contradiction).
    rewrite Hothers by assumption. now rewrite lookup_insert_ne.
Qed.

(** ** The output of the pipeline *)

Section Output.

Context {In Acc Out : Type} {Reducer : beam.CombineFn In Acc Out}.

Implicit Types (p : Pipeline Acc Out) (pane : Pane) (entry : Pane * Acc)
         (k : Key) (w : Window) (records : list (InputRecord In)).

(** The result [fire] emits for an entry of the store. *)
Let result_of entry : FiringResult Out :=
  mkFiringResult (fst (fst entry)) (snd (fst entry)) (beam.extract_output (snd entry)).

Lemma fire_emitted p entry : emitted (fire p entry) = emitted p ++ [result_of entry].
Proof. reflexivity. Qed.

Lemma fire_all_emitted (entries : list (Pane * Acc)) p :
  emitted (fold_left fire entries p) = emitted p ++ map result_of entries.
Proof.
  revert p. induction entries as [|entry entries IH]; intros p; simpl.
  - now rewrite app_nil_r.
  - now rewrite IH, fire_emitted, <- app_assoc.
Qed.

Lemma filter_all {A : Type} (f : A -> bool) (l : list A) :
  (forall a, f a = true) -> List.filter f l = l.
Proof.
  intros Hf. induction l as [|a l IH]; simpl; [reflexivity|].
  now rewrite Hf, IH.
Qed.

Lemma listEligible_at_infinity p : listEligible PlusInfinity p = map_to_list (store p).
Proof. unfold listEligible. apply filter_all. reflexivity. Qed.

Lemma results_of_entries_none (entries : list (Pane * Acc)) pane :
  pane ∉ map fst entries ->
  List.filter (fun r => bool_decide (pane_of r = pane)) (map result_of entries) = [].
Proof.
  intros Hnot. apply results_none.
  rewrite map_map.
  replace (map (fun entry => pane_of (result_of entry)) entries) with (map fst entries);
    [assumption|].
  apply map_ext. now intros [[k w] acc].
Qed.

Lemma results_of_entries_one (entries : list (Pane * Acc)) pane (acc : Acc) :
  NoDup (map fst entries) ->
  (pane, acc) ∈ entries ->
  List.filter (fun r => bool_decide (pane_of r = pane)) (map result_of entries)
  = [result_of (pane, acc)].
Proof.
  induction entries as [|entry entries IH]; intros Hnodup Hin.
  - inversion Hin.
  - cbn [map] in Hnodup. apply NoDup_cons in Hnodup as [Hhead Hnodup].
    cbn [map List.filter].
    assert (Hpane : pane_of (result_of entry) = fst entry) by now destruct entry as [[k w] a].
    rewrite Hpane.
    apply elem_of_cons in Hin as [<-|Hin].
    + cbn [fst]. rewrite bool_decide_true by reflexivity.
      now rewrite (results_of_entries_none entries pane Hhead).
    + assert (Hne : fst entry <> pane).
      { intros Heq. apply Hhead. rewrite Heq.
        apply list_elem_of_fmap. now exists (pane, acc). }
      rewrite bool_decide_false by assumption. now apply IH.
Qed.

(** What the output holds for a pane once everything has fired: the result
    of its accumulator, if it had one. *)
Lemma results_after_firing_all p k w :
  emitted p = [] ->
  List.filter (fun r => bool_decide (pane_of r = (k, w)))
              (emitted (fold_left fire (map_to_list (store p)) p))
  = match store p !! (k, w) with
    | Some acc => [mkFiringResult k w (beam.extract_output acc)]
    | None => []
    end.
Proof.
  intros Hempty. rewrite fire_all_emitted, Hempty. cbn [app].
  destruct (store p !! (k, w)) as [acc|] eqn:Hlookup.
  - rewrite (results_of_entries_one _ (k, w) acc); [reflexivity| |].
    + apply NoDup_fst_map_to_list.
    + now apply elem_of_map_to_list.
  - apply results_of_entries_none. intros Hin.
    apply list_elem_of_fmap in Hin as ([pane acc] & Hpane & Hin).
    apply elem_of_map_to_list in Hin. simpl in Hpane. subst pane.
    assert (Hboth : Some acc = None)
      by (transitivity (store p !! (k, w)); [symmetry; exact Hin|exact Hlookup]).
    discriminate.
Qed.

(** Ingesting records into a pipeline in which nothing has fired. *)
Lemma ingest_all records p k w :
  fired p = ∅ ->
  window_size p = fixed_window_size ->
  let p' := run p (map Ingest records) in
  fired p' = ∅
  /\ emitted p' = emitted p
  /\ store p' !! (k, w)
     = match readings_of k w records with
       | [] => store p !! (k, w)
       | values =>
           Some (fold_left beam.add_input values
                           (default beam.create_accumulator (store p !! (k, w))))
       end.
Proof.
  revert p. induction records as [|r records IH]; intros p Hfired Hsize.
  - now repeat split.
  - cbn [map run fold_left]. fold (run (step p (Ingest r)) (map Ingest records)).
    assert (Hw : assign (event_time r) fixed_window_size
                 = Ok (mkWindow (event_time r / 60 * 60) (event_time r / 60 * 60 + 60)))
      by reflexivity.
    set (wr := mkWindow (event_time r / 60 * 60) (event_time r / 60 * 60 + 60)) in *.
    assert (Hstep : step p (Ingest r)
                    = mkPipeline (window_size p) (tracker p)
                        (<[(key r, wr) :=
                             beam.add_input
                               (default beam.create_accumulator (store p !! (key r, wr)))
                               (value r)]> (store p))
                        (fired p) (emitted p) (late_dropped p)).
    { cbn [step].
      replace (assign (event_time r) (window_size p)) with (Ok wr)
        by now rewrite Hsize.
      unfold addRecord, has_fired.
      rewrite bool_decide_false; [reflexivity|]. rewrite Hfired. set_solver. }
    destruct (IH (step p (Ingest r))) as (Hfired' & Hemitted' & Hstore').
    { now rewrite Hstep. }
    { now rewrite Hstep. }
    cbv zeta in *. split; [exact Hfired'|].
    split; [rewrite Hemitted', Hstep; reflexivity|].
    rewrite Hstore'. unfold readings_of. cbn [List.filter].
    unfold in_pane at 2. rewrite Hw.
    destruct (decide ((key r, wr) = (k, w))) as [Heq|Hne].
    + injection Heq as Hk Hwr.
      assert (Hnow : store (step p (Ingest r)) !! (k, w)
                     = Some (beam.add_input
                               (default beam.create_accumulator (store p !! (k, w)))
                               (value r))).
      { rewrite Hstep. cbn [store]. rewrite Hk, Hwr. apply lookup_insert_eq. }
      rewrite Hnow, !bool_decide_true by assumption. cbn [andb map].
      now destruct (map value (List.filter (in_pane k w) records)).
    + assert (Hnow : store (step p (Ingest r)) !! (k, w) = store p !! (k, w)).
      { rewrite Hstep. cbn [store]. now apply lookup_insert_ne. }
      assert (Hout : bool_decide (key r = k) && bool_decide (wr = w) = false).
      { apply andb_false_iff.
        destruct (decide (key r = k)) as [Hk|Hk];
          [right|left]; apply bool_decide_eq_false; congruence. }
      now rewrite Hnow, Hout.
Qed.

Lemma results_at_end_of_stream p k w :
  emitted p = [] ->
  results_for k w (step p AdvanceToInfinity)
  = match store p !! (k, w) with
    | Some acc => [mkFiringResult k w (beam.extract_output acc)]
    | None => []
    end.
Proof.
  intros Hempty. unfold results_for. cbn [step]. unfold trigger.
  change (WatermarkTracker.current
            (tracker (with_tracker (WatermarkTracker.advanceToInfinity (tracker p)) p)))
    with PlusInfinity.
  rewrite listEligible_at_infinity.
  now rewrite (results_after_firing_all
                 (with_tracker (WatermarkTracker.advanceToInfinity (tracker p)) p) k w).
Qed.

(** A bounded source followed by the end of the stream. *)
Lemma results_of_bounded_source records (watermark : Timestamp) k w :
  results_for k w
    (run (initial fixed_window_size watermark : Pipeline Acc Out)
         (map Ingest records ++ [AdvanceToInfinity]))
  = match readings_of k w records with
    | [] => []
    | values =>
        [mkFiringResult k w
           (beam.extract_output (fold_left beam.add_input values beam.create_accumulator))]
    end.
Proof.
  unfold run. rewrite fold_left_app. cbn [fold_left].
  fold (run (initial fixed_window_size watermark : Pipeline Acc Out) (map Ingest records)).
  destruct (ingest_all records (initial fixed_window_size watermark) k w)
    as (Hfired & Hemitted & Hstore); try reflexivity.
  cbv zeta in Hfired, Hemitted, Hstore.
  rewrite results_at_end_of_stream by exact Hemitted.
  rewrite Hstore.
  now destruct (readings_of k w records).
Qed.

End Output.

Lemma readings_of_permutation {In : Type} (k : Key) (w : Window)
      (records delivered : list (InputRecord In)) :
  Permutation records delivered ->
  Permutation (readings_of k w records) (readings_of k w delivered).
Proof.
  intros Hperm. unfold readings_of. apply Permutation_map.
  induction Hperm as [|r l l' _ IH|r r' l|l l' l'' _ IH1 _ IH2]; cbn [List.filter].
  - constructor.
  - destruct (in_pane k w r); [now constructor|assumption].
  - destruct (in_pane k w r), (in_pane k w r'); try reflexivity.
    apply perm_swap.
  - now transitivity (List.filter (in_pane k w) l').
Qed.


